(** * utiljs-pro: a shallow embedding of [src/index.ts]

    The library is a flat set of helper functions.  This development embeds
    the type predicates ([isIndexOf], [isArray], [isIndexable], [isString],
    [isNumber], [isPromise], [isAsyncFunction]), the array helpers
    ([remove], [unique], [arraysEqual]) and the two timer wrappers
    ([throttle], [debounce]) together with the part of the JavaScript host
    they run on: values, numbers, strict equality, [Set], [splice], and a
    one-shot timer queue.  It goes on to the other array helpers
    ([removeAtIndex], [merge], [shuffle]), the string helpers ([isEmail],
    [isPhone], [toTitleCase], [parseQueryString]) and [groupBy]. *)

From Stdlib Require Import ZArith QArith Qabs Qround List String Ascii Bool Lia Arith Sorted Permutation FinFun.
Import ListNotations.


(** ** JavaScript numbers

    A JavaScript number is an IEEE-754 binary64.  Every finite binary64 is a
    rational, and the operations the library applies to numbers ([<], [>=],
    [===], [isNaN], [Number.isInteger]) are exact, so numbers are embedded
    as [NaN], the two infinities and the rationals; the only rounding step,
    the one of [Number(string)], is written out in [round_binary64].  The
    sign of zero is not kept: none of the operations used here tells [-0]
    from [+0]. *)
Module JsNumber.

Inductive number : Type :=
| NaN
| Infinity (negative : bool)
| Finite (q : Q).

Definition of_Z (z : Z) : number := Finite (inject_Z z).
Definition of_nat (n : nat) : number := of_Z (Z.of_nat n).

(** [isNaN(x)] on an argument that already is a number. *)
Definition isNaN (x : number) : bool :=
  match x with NaN => true | _ => false end.

Definition Q_is_integer (q : Q) : bool :=
  (Qnum q mod Zpos (Qden q) =? 0)%Z.

(** [Number.isInteger(x)]: finite and equal to its truncation. *)
Definition isInteger (x : number) : bool :=
  match x with Finite q => Q_is_integer q | _ => false end.

(** [x < y].  A comparison with [NaN] is undefined, which [<] turns into
    [false]. *)
Definition lt (x y : number) : bool :=
  match x, y with
  | NaN, _ => false
  | _, NaN => false
  | Infinity true, Infinity true => false
  | Infinity true, _ => true
  | Infinity false, _ => false
  | Finite _, Infinity negative => negb negative
  | Finite a, Finite b => negb (Qle_bool b a)
  end.

(** [x >= y]: [false] when [x < y] is true or undefined. *)
Definition ge (x y : number) : bool :=
  match x, y with
  | NaN, _ => false
  | _, NaN => false
  | _, _ => negb (lt x y)
  end.

(** [Number::equal], the numeric case of [===]. *)
Definition equal (x y : number) : bool :=
  match x, y with
  | Infinity a, Infinity b => Bool.eqb a b
  | Finite a, Finite b => Qeq_bool a b
  | _, _ => false
  end.

(** [Number::sameValueZero], the numeric case of the comparison [Set] uses. *)
Definition sameValueZero (x y : number) : bool :=
  match x, y with
  | NaN, NaN => true
  | _, _ => equal x y
  end.

(** *** Rounding a rational to binary64 (round to nearest, ties to even) *)

Definition pow2 (e : Z) : Q :=
  if (0 <=? e)%Z then inject_Z (2 ^ e) else 1 # Z.to_pos (2 ^ (- e)).

(** Floor of the binary logarithm of a positive rational. *)
Definition floor_log2 (q : Q) : Z :=
  let k := (Z.log2 (Qnum q) - Z.log2 (Zpos (Qden q)))%Z in
  if Qle_bool (pow2 k) q then k else (k - 1)%Z.

Definition round_half_even (q : Q) : Z :=
  let n := Qnum q in
  let d := Zpos (Qden q) in
  let f := (n / d)%Z in
  let r := (n mod d)%Z in
  match (2 * r ?= d)%Z with
  | Lt => f
  | Gt => (f + 1)%Z
  | Eq => if Z.even f then f else (f + 1)%Z
  end.

Definition round_binary64 (q : Q) : number :=
  if Qeq_bool q 0 then Finite 0
  else
    let negative := negb (Qle_bool 0 q) in
    let a := Qabs q in
    let e := Z.max (floor_log2 a - 52) (-1074) in
    let m := round_half_even (Qred (a / pow2 e)) in
    let r := Qred (inject_Z m * pow2 e) in
    if Qle_bool (pow2 1024) r then Infinity negative
    else Finite (if negative then Qopp r else r).

End JsNumber.

(** ** [Number(string)]: the StringToNumber operation

    A string of the model is a sequence of UTF-16 code units in the range
    U+0000..U+00FF, one per [ascii] character. *)
Module StringToNumber.
Import JsNumber.

Definition code (c : ascii) : Z := Z.of_N (N_of_ascii c).

(** WhiteSpace and LineTerminator code points below U+0100. *)
Definition is_whitespace (c : ascii) : bool :=
  let n := code c in
  ((9 <=? n) && (n <=? 13) || (n =? 32) || (n =? 160))%Z.

Fixpoint drop_whitespace (cs : list ascii) : list ascii :=
  match cs with
  | c :: cs' => if is_whitespace c then drop_whitespace cs' else cs
  | [] => []
  end.

Definition trim (cs : list ascii) : list ascii :=
  rev (drop_whitespace (rev (drop_whitespace cs))).

Definition digit_of (base : Z) (c : ascii) : option Z :=
  let n := code c in
  let d :=
    if ((48 <=? n) && (n <=? 57))%Z then Some (n - 48)%Z
    else if ((97 <=? n) && (n <=? 102))%Z then Some (n - 87)%Z
    else if ((65 <=? n) && (n <=? 70))%Z then Some (n - 55)%Z
    else None in
  match d with
  | Some v => if (v <? base)%Z then Some v else None
  | None => None
  end.

Fixpoint digits_value (base acc : Z) (cs : list ascii) : option Z :=
  match cs with
  | [] => Some acc
  | c :: cs' =>
      match digit_of base c with
      | Some d => digits_value base (acc * base + d)%Z cs'
      | None => None
      end
  end.

Fixpoint span_digits (cs : list ascii) : list ascii * list ascii :=
  match cs with
  | c :: cs' =>
      match digit_of 10 c with
      | Some _ => let (ds, rest) := span_digits cs' in (c :: ds, rest)
      | None => ([], cs)
      end
  | [] => ([], [])
  end.

(** The mathematical value of a literal, before rounding. *)
Inductive mv : Type :=
| MVInfinity
| MVRational (q : Q).

Definition is_nil {A} (l : list A) : bool :=
  match l with [] => true | _ => false end.

(** ExponentPart, optional, up to the end of the literal. *)
Definition parse_exponent (cs : list ascii) : option Z :=
  match cs with
  | [] => Some 0%Z
  | c :: rest =>
      if (Ascii.eqb c "e" || Ascii.eqb c "E")%char then
        let (negative, ds) :=
          match rest with
          | "+"%char :: r => (false, r)
          | "-"%char :: r => (true, r)
          | _ => (false, rest)
          end in
        if is_nil ds then None
        else match digits_value 10 0 ds with
             | Some v => Some (if negative then (- v)%Z else v)
             | None => None
             end
      else None
  end.

Definition scaled (digits : list ascii) (exponent : Z) : option mv :=
  match digits_value 10 0 digits with
  | Some n => Some (MVRational (inject_Z n * Qpower (10 # 1) exponent))
  | None => None
  end.

(** StrUnsignedDecimalLiteral. *)
Definition parse_unsigned_decimal (cs : list ascii) : option mv :=
  if String.eqb (string_of_list_ascii cs) "Infinity" then Some MVInfinity
  else
    let (ip, r1) := span_digits cs in
    match r1 with
    | "."%char :: r =>
        let (fp, r2) := span_digits r in
        if is_nil ip && is_nil fp then None
        else match parse_exponent r2 with
             | Some e => scaled (ip ++ fp) (e - Z.of_nat (List.length fp))
             | None => None
             end
    | _ =>
        if is_nil ip then None
        else match parse_exponent r1 with
             | Some e => scaled ip e
             | None => None
             end
    end.

(** NonDecimalIntegerLiteral: [0x], [0o], [0b] and their digits. *)
Definition parse_non_decimal (cs : list ascii) : option (option mv) :=
  match cs with
  | "0"%char :: p :: ds =>
      let base :=
        if (Ascii.eqb p "x" || Ascii.eqb p "X")%char then Some 16%Z
        else if (Ascii.eqb p "o" || Ascii.eqb p "O")%char then Some 8%Z
        else if (Ascii.eqb p "b" || Ascii.eqb p "B")%char then Some 2%Z
        else None in
      match base with
      | Some b =>
          Some (if is_nil ds then None
                else match digits_value b 0 ds with
                     | Some n => Some (MVRational (inject_Z n))
                     | None => None
                     end)
      | None => None
      end
  | _ => None
  end.

Definition to_number (negative : bool) (m : option mv) : number :=
  match m with
  | None => NaN
  | Some MVInfinity => Infinity negative
  | Some (MVRational q) => round_binary64 (if negative then Qopp q else q)
  end.

Definition StringToNumber (s : string) : number :=
  let cs := trim (list_ascii_of_string s) in
  if is_nil cs then Finite 0
  else
    match parse_non_decimal cs with
    | Some m => to_number false m
    | None =>
        match cs with
        | "+"%char :: r => to_number false (parse_unsigned_decimal r)
        | "-"%char :: r => to_number true (parse_unsigned_decimal r)
        | _ => to_number false (parse_unsigned_decimal cs)
        end
    end.

End StringToNumber.

(** ** Completions: a call either returns normally or throws *)

Inductive thrown (V : Type) : Type :=
| TypeError (message : string)
| RangeError (message : string)
| Thrown (v : V).
Arguments TypeError {V} message.
Arguments RangeError {V} message.
Arguments Thrown {V} v.

Inductive completion (V A : Type) : Type :=
| Normal (a : A)
| Throw (e : thrown V).
Arguments Normal {V A} a.
Arguments Throw {V A} e.

Definition bind {V A B} (c : completion V A) (k : A -> completion V B)
  : completion V B :=
  match c with
  | Normal a => k a
  | Throw e => Throw e
  end.

Notation "x <- c ;; k" := (bind c (fun x => k))
  (at level 61, c at next level, right associativity).

(** ** JavaScript values

    Objects carry their identity ([ref]), which is what [===] compares, and
    the part of their contents the library inspects.  Proxy exotic objects
    are outside the model.  An object is an instance of [Promise] exactly
    when it was made as one; for a function, what the lookup of [toString]
    finds is part of the object, since a prototype can be replaced. *)
Module JsValue.
Import JsNumber.

(** The syntactic form a function was written in, with the pieces of its
    source text that [Function.prototype.toString] gives back. *)
Inductive function_syntax : Type :=
| FunctionForm (async : bool) (sep tail : string)
    (* [async<sep>function<tail>] or [function<tail>] *)
| ArrowForm (async : bool) (tail : string)
    (* [async<tail>] or [<tail>], tail being [x => e], [(a, b) => e] ... *)
| MethodForm (async : bool) (tail : string)
    (* [async<tail>] or [<tail>], tail being [name(params) { body }] ... *)
| ClassForm (tail : string)
    (* [class<tail>] *)
| NativeForm (name : string).
    (* built-in and bound functions *)

Definition declared_async (f : function_syntax) : bool :=
  match f with
  | FunctionForm async _ _ => async
  | ArrowForm async _ => async
  | MethodForm async _ => async
  | ClassForm _ => false
  | NativeForm _ => false
  end.

Definition source_text (f : function_syntax) : string :=
  match f with
  | FunctionForm true sep tail => "async" ++ sep ++ "function" ++ tail
  | FunctionForm false _ tail => "function" ++ tail
  | ArrowForm true tail => "async" ++ tail
  | ArrowForm false tail => tail
  | MethodForm true tail => "async" ++ tail
  | MethodForm false tail => tail
  | ClassForm tail => "class" ++ tail
  | NativeForm name => "function " ++ name ++ "() { [native code] }"
  end.

(** The values that are not objects. *)
Inductive primitive : Type :=
| PUndefined
| PNull
| PBoolean (b : bool)
| PNumber (n : number)
| PString (s : string)
| PSymbol (id : nat)
| PBigInt (z : Z).

Inductive value : Type :=
| VUndefined
| VNull
| VBoolean (b : bool)
| VNumber (n : number)
| VString (s : string)
| VSymbol (id : nat)
| VBigInt (z : Z)
| VObject (ref : nat) (o : object)
with object : Type :=
| OPlain
| ODate
| OSet
| OMap
| OError
| ORegExp
| OPromise
| OArray (elements : list (option value))   (* [None] is a hole *)
| OArrayLike (length : number)              (* any other object with a numeric [length] *)
| OHasLength (length : length_read)         (* any other object with a [length] *)
| OFunction (syntax : function_syntax)
            (arity : nat)                     (* its [length] *)
            (on_call : behaviour)             (* what calling it does *)
            (toString : method_lookup)        (* what [func.toString] finds *)
with behaviour : Type :=
| Returns (v : value)
| Throws (e : value)
with method_lookup : Type :=
| BuiltIn                (* the method of the standard prototype *)
| Replaced (m : value)   (* an own property, or one inherited from a prototype put in place *)
| Missing                (* nothing: the prototype is [null], or has no such property *)
with length_read : Type :=
| Reads (p : primitive)    (* a data property holding [p], or a getter returning it *)
| ReadThrows (e : value).  (* a getter that throws *)

(** [typeof v] *)
Definition typeof (v : value) : string :=
  match v with
  | VUndefined => "undefined"
  | VNull => "object"
  | VBoolean _ => "boolean"
  | VNumber _ => "number"
  | VString _ => "string"
  | VSymbol _ => "symbol"
  | VBigInt _ => "bigint"
  | VObject _ (OFunction _ _ _ _) => "function"
  | VObject _ _ => "object"
  end.

(** ToBoolean, as used by [&&] and [if]. *)
Definition ToBoolean (v : value) : bool :=
  match v with
  | VUndefined | VNull => false
  | VBoolean b => b
  | VNumber NaN => false
  | VNumber (Finite q) => negb (Qeq_bool q 0)
  | VNumber (Infinity _) => true
  | VString s => negb (String.eqb s "")
  | VSymbol _ => true
  | VBigInt z => negb (z =? 0)%Z
  | VObject _ _ => true
  end.

(** [Array.isArray(v)] *)
Definition Array_isArray (v : value) : bool :=
  match v with
  | VObject _ (OArray _) => true
  | _ => false
  end.

(** [v instanceof Promise] *)
Definition instanceof_Promise (v : value) : bool :=
  match v with
  | VObject _ OPromise => true
  | _ => false
  end.

(** [x === y] (IsStrictlyEqual) *)
Definition strict_equals (x y : value) : bool :=
  match x, y with
  | VUndefined, VUndefined => true
  | VNull, VNull => true
  | VBoolean a, VBoolean b => Bool.eqb a b
  | VNumber a, VNumber b => JsNumber.equal a b
  | VString a, VString b => String.eqb a b
  | VSymbol a, VSymbol b => Nat.eqb a b
  | VBigInt a, VBigInt b => (a =? b)%Z
  | VObject a _, VObject b _ => Nat.eqb a b
  | _, _ => false
  end.

(** SameValueZero, the comparison of [Set] and [Map] keys. *)
Definition same_value_zero (x y : value) : bool :=
  match x, y with
  | VNumber a, VNumber b => JsNumber.sameValueZero a b
  | _, _ => strict_equals x y
  end.

Definition JsCompletion := completion value.

(** Calling a value with no arguments. *)
Definition call (callee : value) : JsCompletion value :=
  match callee with
  | VObject _ (OFunction _ _ (Returns v) _) => Normal v
  | VObject _ (OFunction _ _ (Throws e) _) => Throw (Thrown e)
  | _ => Throw (TypeError "not a function")
  end.

(** [func.toString()] on a function object, the only kind of value the
    library calls it on: [Function.prototype.toString] gives the source
    text; whatever else the lookup finds is called; when it finds nothing,
    [undefined] is called. *)
Definition invoke_toString (func : value) : JsCompletion value :=
  match func with
  | VObject _ (OFunction syntax _ _ BuiltIn) => Normal (VString (source_text syntax))
  | VObject _ (OFunction _ _ _ (Replaced m)) => call m
  | VObject _ (OFunction _ _ _ Missing) => Throw (TypeError "func.toString is not a function")
  | _ => Throw (TypeError "not a function object")
  end.

(** [s.startsWith(prefix)]: only strings have the method.  [undefined] and
    [null] have no properties at all; on any other value the lookup gives
    [undefined], which is not callable (no object of the model has a
    [startsWith] of its own). *)
Definition invoke_startsWith (s : value) (prefix : string) : JsCompletion bool :=
  match s with
  | VString str => Normal (String.prefix prefix str)
  | VUndefined | VNull => Throw (TypeError "cannot read properties")
  | _ => Throw (TypeError "startsWith is not a function")
  end.

(** [array.length].  [undefined] and [null] have no properties; strings,
    arrays, functions and array-like objects have a numeric [length]; an
    object may hold any primitive there, or have a getter that throws; on
    any other value of the model the property is [undefined].  A [length]
    that is itself an object would be converted through that object's own
    [valueOf] and [toString]: such objects are outside the model. *)
Definition get_length (array : value) : JsCompletion primitive :=
  match array with
  | VUndefined | VNull => Throw (TypeError "cannot read properties")
  | VString s => Normal (PNumber (JsNumber.of_nat (String.length s)))
  | VObject _ (OArray elements) => Normal (PNumber (JsNumber.of_nat (List.length elements)))
  | VObject _ (OArrayLike length) => Normal (PNumber length)
  | VObject _ (OHasLength (Reads p)) => Normal p
  | VObject _ (OHasLength (ReadThrows e)) => Throw (Thrown e)
  | VObject _ (OFunction _ arity _ _) => Normal (PNumber (JsNumber.of_nat arity))
  | _ => Normal PUndefined
  end.

(** [x < z] for a number and a BigInt: the mathematical values are
    compared, and [NaN] is below nothing. *)
Definition lt_BigInt (x : number) (z : Z) : bool :=
  match x with
  | NaN => false
  | Infinity negative => negative
  | Finite q => negb (Qle_bool (inject_Z z) q)
  end.

(** [x < p] for a number [x] (IsLessThan): a BigInt is compared as it is,
    anything else goes through ToNumber, which throws on a Symbol; an
    undefined comparison is [false]. *)
Definition less_than (x : number) (p : primitive) : JsCompletion bool :=
  match p with
  | PUndefined => Normal false
  | PNull => Normal (JsNumber.lt x (JsNumber.of_Z 0))
  | PBoolean b => Normal (JsNumber.lt x (JsNumber.of_Z (if b then 1 else 0)))
  | PNumber y => Normal (JsNumber.lt x y)
  | PString s => Normal (JsNumber.lt x (StringToNumber.StringToNumber s))
  | PSymbol _ => Throw (TypeError "Cannot convert a Symbol value to a number")
  | PBigInt z => Normal (lt_BigInt x z)
  end.

End JsValue.

Import JsNumber StringToNumber JsValue.
Open Scope string_scope.

(** ** The type predicates of [src/index.ts] *)

(** [Number(idx)] at its only call site, where [idx] is a string. *)
Definition Number (s : string) : number := StringToNumber s.

(** [isIndexOf(idx, array)].  The first line rebinds [idx] when it is a
    non-empty string; in the second, [typeof idx === 'number'] guards the
    numeric tests that follow it, and [array.length] is read only when all
    the tests before it have passed. *)
Definition isIndexOf (idx array : value) : JsCompletion bool :=
  let idx :=
    match idx with
    | VString s => if ToBoolean idx then VNumber (Number s) else idx
    | _ => idx
    end in
  match idx with
  | VNumber n =>
      if negb (JsNumber.isNaN n) && JsNumber.isInteger n
         && JsNumber.ge n (JsNumber.of_Z 0)
      then
        length <- get_length array ;;
        less_than n length
      else Normal false
  | _ => Normal false
  end.

(** [isArray(array)] *)
Definition isArray (array : value) : JsCompletion bool :=
  Normal (Array_isArray array).

(** [isIndexable(array)]: [Array.isArray(array) && array.length != 0] *)
Definition isIndexable (array : value) : JsCompletion bool :=
  match array with
  | VObject _ (OArray elements) => Normal (negb (List.length elements =? 0)%nat)
  | _ => Normal false
  end.

(** [isString(value)] *)
Definition isString (v : value) : JsCompletion bool :=
  Normal (String.eqb (typeof v) "string").

(** [isNumber(value)] *)
Definition isNumber (v : value) : JsCompletion bool :=
  Normal (String.eqb (typeof v) "number").

(** [isPromise(obj)] *)
Definition isPromise (obj : value) : JsCompletion bool :=
  Normal (instanceof_Promise obj).

(** [isAsyncFunction(func)]:
    [typeof func === 'function' && func?.toString().startsWith('async')].
    Past the [typeof] test [func] is not nullish, so [?.] never cuts the
    chain short. *)
Definition isAsyncFunction (func : value) : JsCompletion bool :=
  if String.eqb (typeof func) "function" then
    s <- invoke_toString func ;;
    invoke_startsWith s "async"
  else Normal false.

(** *** Vocabulary of the statements *)

(** [idx] after the coercion [isIndexOf] applies to a non-empty string. *)
Definition coerced (idx : value) : value :=
  match idx with
  | VString "" => idx
  | VString s => VNumber (Number s)
  | _ => idx
  end.

(** [v] is the number [z], an integer with [0 <= z < len]. *)
Definition is_index_below (v : value) (len : number) : Prop :=
  exists (q : Q) (z : Z),
    v = VNumber (Finite q) /\ q == inject_Z z /\ (0 <= z)%Z
    /\ JsNumber.lt (JsNumber.of_Z z) len = true.

(** [array] is array-like, with length [len]. *)
Definition array_like (array : value) (len : number) : Prop :=
  get_length array = Normal (PNumber len).

Definition slots_123 : list (option value) :=
  [Some (VNumber (JsNumber.of_Z 1)); Some (VNumber (JsNumber.of_Z 2));
   Some (VNumber (JsNumber.of_Z 3))].

(** The array [[1, 2, 3]]. *)
Definition array_123 : value := VObject 1 (OArray slots_123).

(** A function object whose [toString] is the built-in one. *)
Definition plain_function (ref : nat) (f : function_syntax) (arity : nat)
           (b : behaviour) : value :=
  VObject ref (OFunction f arity b BuiltIn).

Definition returns_boolean (c : JsCompletion bool) : Prop :=
  exists b : bool, c = Normal b.

(** The numeric tests of [isIndexOf] that come before [array.length]. *)
Definition index_test (n : number) : bool :=
  negb (JsNumber.isNaN n) && JsNumber.isInteger n
  && JsNumber.ge n (JsNumber.of_Z 0).

(** A method that is not [async], returns a promise by hand, and is named
    [asyncLoad]. *)
Definition asyncLoad_syntax : function_syntax :=
  MethodForm false "asyncLoad() { return new Promise(r => r(1)) }".

Definition asyncLoad_method : value :=
  plain_function 7 asyncLoad_syntax 0 (Returns (VObject 8 OPromise)).

(** An arrow function whose [toString] property has been set to [null]. *)
Definition function_without_toString : value :=
  VObject 3 (OFunction (ArrowForm false "() => { }") 0 (Returns VUndefined) (Replaced VNull)).

(** ** The array helpers of [src/index.ts]

    An array is the list of its slots, a hole being [None]. *)
Module JsArray.
Local Open Scope list_scope.

Definition array : Type := list (option value).

(** What iterating an array, or reading [a[i]], gives for a slot. *)
Definition slot_value (slot : option value) : value :=
  match slot with Some v => v | None => VUndefined end.

(** [a[i]] *)
Definition get (a : array) (i : nat) : value :=
  match nth_error a i with Some slot => slot_value slot | None => VUndefined end.

(** [a.every(callbackfn)]: holes are skipped. *)
Fixpoint every_from (i : nat) (callbackfn : value -> nat -> bool) (a : array) : bool :=
  match a with
  | [] => true
  | None :: a' => every_from (S i) callbackfn a'
  | Some v :: a' => callbackfn v i && every_from (S i) callbackfn a'
  end.

Definition every (callbackfn : value -> nat -> bool) (a : array) : bool :=
  every_from 0 callbackfn a.

(** [a.indexOf(searchElement)]: holes are skipped, [===] compares. *)
Fixpoint indexOf_from (k : Z) (searchElement : value) (a : array) : Z :=
  match a with
  | [] => (-1)%Z
  | None :: a' => indexOf_from (k + 1)%Z searchElement a'
  | Some e :: a' =>
      if strict_equals searchElement e then k
      else indexOf_from (k + 1)%Z searchElement a'
  end.

Definition indexOf (searchElement : value) (a : array) : Z :=
  indexOf_from 0 searchElement a.

(** [a.splice(start, deleteCount)]: the removed slots, and the array as the
    call leaves it. *)
Definition splice (start deleteCount : Z) (a : array) : array * array :=
  let len := Z.of_nat (List.length a) in
  let actualStart :=
    if (start <? 0)%Z then Z.max (len + start) 0 else Z.min start len in
  let actualDeleteCount := Z.min (Z.max deleteCount 0) (len - actualStart) in
  let s := Z.to_nat actualStart in
  let d := Z.to_nat actualDeleteCount in
  (firstn d (skipn s a), firstn s a ++ skipn (s + d) a).

(** [new Set(iterable)] and [Array.from(set)]: a set is the list of its
    elements in insertion order. *)
Definition Set_add (s : list value) (v : value) : list value :=
  if existsb (fun e => same_value_zero e v) s then s else s ++ [v].

Definition new_Set (a : array) : list value :=
  fold_left Set_add (map slot_value a) [].

Definition Array_from (s : list value) : array := map Some s.

(** [remove(item, array)]: the returned array, and [array] afterwards. *)
Definition remove (item : value) (a : array) : array * array :=
  let idx := indexOf item a in
  splice idx 1 a.

(** [unique(array)] *)
Definition unique (a : array) : array := Array_from (new_Set a).

(** [arraysEqual(a, b)] *)
Definition arraysEqual (a b : array) : bool :=
  (List.length a =? List.length b)%nat
  && every (fun v i => strict_equals v (get b i)) a.

Definition is_NaN_slot (slot : option value) : bool :=
  match slot with Some (VNumber NaN) => true | _ => false end.

(** A set holds no two elements that [SameValueZero] identifies. *)
Inductive Distinct : list value -> Prop :=
| Distinct_nil : Distinct []
| Distinct_snoc (s : list value) (v : value) :
    Distinct s ->
    existsb (fun e => same_value_zero e v) s = false ->
    Distinct (s ++ [v]).

End JsArray.

(** ** The host's one-shot timers, and [throttle] and [debounce]

    The host hands out a fresh handle for every [setTimeout], keeps the
    active timers ordered by the time they are due, and runs a callback
    when the clock reaches that time.  Time is in milliseconds.  The
    function a wrapper wraps is known by what a run of it does on the page:
    the wrappers it calls, and whether it returns or throws in the end.  A
    run of it takes no time, and calls nest only as deep as the stack has
    room for. *)
Module Timers.
Local Open Scope list_scope.
Local Close Scope Q_scope.

Definition Args : Type := list value.

(** One run of a wrapped function: it calls wrappers of the page, each
    time going on according to how that call completed, and at last returns
    or throws. *)
Inductive Script : Type :=
| Finish (outcome : JsCompletion unit)
| CallThen (w : nat) (args : Args) (continue : JsCompletion unit -> Script).

(** A wrapped function.  It may keep state of its own: what a run of it
    does may depend on its arguments and on how many runs of wrapped
    functions the page has seen before. *)
Definition Callee : Type := nat -> Args -> Script.

Inductive wrapper_kind : Type := Throttle | Debounce.

(** The closure either function returns: [fn], [delay] and its [timer]
    variable ([None] is [null]). *)
Record Wrapper : Type := {
  kind : wrapper_kind;
  fn : Callee;
  delay : nat;
  timer : option positive
}.

(** The two arrow functions handed to [setTimeout]. *)
Inductive Callback : Type :=
| ThrottleExpiry (w : nat)               (* [() => { timer = null }] *)
| DebounceFire (w : nat) (args : Args).  (* [() => { fn(...args) }] *)



Record Timer : Type := {
  handle : positive;
  due : nat;
  callback : Callback
}.

(** One call of a wrapped [fn]. *)
Record Invocation : Type := {
  at_time : nat;
  callee : nat;
  arguments : Args
}.

(** [stack_room] is the number of calls that can nest inside a call made
    from the top level before the engine throws a RangeError. *)
Record Host : Type := {
  now : nat;
  next_handle : positive;
  timers : list Timer;
  wrappers : list Wrapper;
  invocations : list Invocation;
  stack_room : nat
}.

Definition initial : Host :=
  {| now := 0; next_handle := 1; timers := []; wrappers := []; invocations := [];
     stack_room := 1000 |}.

Definition set_now (t : nat) (h : Host) : Host :=
  {| now := t; next_handle := next_handle h; timers := timers h;
     wrappers := wrappers h; invocations := invocations h;
     stack_room := stack_room h |}.

Definition set_timers (q : list Timer) (h : Host) : Host :=
  {| now := now h; next_handle := next_handle h; timers := q;
     wrappers := wrappers h; invocations := invocations h;
     stack_room := stack_room h |}.

Definition set_wrappers (ws : list Wrapper) (h : Host) : Host :=
  {| now := now h; next_handle := next_handle h; timers := timers h;
     wrappers := ws; invocations := invocations h;
     stack_room := stack_room h |}.

Fixpoint update (w : nat) (f : Wrapper -> Wrapper) (ws : list Wrapper) : list Wrapper :=
  match ws, w with
  | [], _ => []
  | x :: ws', O => f x :: ws'
  | x :: ws', S w' => x :: update w' f ws'
  end.

Definition cell_set (v : option positive) (c : Wrapper) : Wrapper :=
  {| kind := kind c; fn := fn c; delay := delay c; timer := v |}.

(** [timer = v] inside wrapper [w]. *)
Definition assign_timer (w : nat) (v : option positive) (h : Host) : Host :=
  set_wrappers (update w (cell_set v) (wrappers h)) h.

(** [fn(...args)] as seen by the host: the call is recorded. *)
Definition record_invocation (w : nat) (args : Args) (h : Host) : Host :=
  {| now := now h; next_handle := next_handle h; timers := timers h;
     wrappers := wrappers h;
     invocations := invocations h ++ [{| at_time := now h; callee := w; arguments := args |}];
     stack_room := stack_room h |}.

Fixpoint enqueue (t : Timer) (q : list Timer) : list Timer :=
  match q with
  | [] => [t]
  | x :: q' => if (due x <=? due t)%nat then x :: enqueue t q' else t :: q
  end.

(** [setTimeout(cb, ms)] *)
Definition setTimeout (cb : Callback) (ms : nat) (h : Host) : positive * Host :=
  let id := next_handle h in
  (id,
   {| now := now h; next_handle := Pos.succ id;
      timers := enqueue {| handle := id; due := now h + ms; callback := cb |} (timers h);
      wrappers := wrappers h; invocations := invocations h;
      stack_room := stack_room h |}).

(** [clearTimeout(id)] *)
Definition clearTimeout (id : positive) (h : Host) : Host :=
  set_timers (filter (fun x => negb (Pos.eqb (handle x) id)) (timers h)) h.

(** [throttle(fn, delay)] and [debounce(fn, delay)]: a new closure, with its
    own [timer] variable, initially [null]. *)
Definition create (k : wrapper_kind) (f : Callee) (ms : nat) (h : Host) : nat * Host :=
  (List.length (wrappers h),
   set_wrappers (wrappers h ++ [{| kind := k; fn := f; delay := ms; timer := None |}]) h).

Definition throttle (f : Callee) (ms : nat) (h : Host) : nat * Host :=
  create Throttle f ms h.


(** A run of a wrapped function, [call] being what calling a wrapper from
    inside it does. *)
Fixpoint run_script (call : nat -> Args -> Host -> Host * JsCompletion unit)
    (s : Script) (h : Host) : Host * JsCompletion unit :=
  match s with
  | Finish outcome => (h, outcome)
  | CallThen w args continue =>
      let (h', r) := call w args h in
      run_script call (continue r) h'
  end.

(** The function [throttle] returns, as closure [w] with variables [c]:
    [if (!timer) { fn(...args); timer = setTimeout(() => { timer = null }, delay) }].
    A handle is never falsy, so [!timer] tests the variable against
    [null].  The variable is read when the call begins and written after
    [fn] has returned, whatever [fn] did to it in between.  The run of
    [fn] is the one that comes after the runs the page has recorded. *)
Definition throttled (call : nat -> Args -> Host -> Host * JsCompletion unit)
    (w : nat) (c : Wrapper) (args : Args) (h : Host) : Host * JsCompletion unit :=
  match timer c with
  | None =>
      match run_script call (fn c (List.length (invocations h)) args)
                       (record_invocation w args h) with
      | (h1, Throw e) => (h1, Throw e)
      | (h1, Normal _) =>
          let (id, h2) := setTimeout (ThrottleExpiry w) (delay c) h1 in
          (assign_timer w (Some id) h2, Normal tt)
      end
  | Some _ => (h, Normal tt)
  end.

(** The function [debounce] returns:
    [if (timer) { clearTimeout(timer) }; timer = setTimeout(() => { fn(...args) }, delay)]. *)
Definition debounced (w : nat) (c : Wrapper) (args : Args) (h : Host)
  : Host * JsCompletion unit :=
  let h1 :=
    match timer c with
    | Some id => clearTimeout id h
    | None => h
    end in
  let (id, h2) := setTimeout (DebounceFire w args) (delay c) h1 in
  (assign_timer w (Some id) h2, Normal tt).

(** Calling closure [w] with [args]. *)
Definition call_closure (call : nat -> Args -> Host -> Host * JsCompletion unit)
    (w : nat) (args : Args) (h : Host) : Host * JsCompletion unit :=
  match nth_error (wrappers h) w with
  | None => (h, Throw (TypeError "not a function"))
  | Some c =>
      match kind c with
      | Throttle => throttled call w c args h
      | Debounce => debounced w c args h
      end
  end.

(** A call made from inside a wrapped function, with room for [room] calls
    on the stack. *)
Fixpoint call_nested (room : nat) (w : nat) (args : Args) (h : Host)
  : Host * JsCompletion unit :=
  match room with
  | O => (h, Throw (RangeError "Maximum call stack size exceeded"))
  | S room' => call_closure (call_nested room') w args h
  end.

(** Calling wrapper [w] with [args] from the top level. *)
Definition call_wrapper (w : nat) (args : Args) (h : Host) : Host * JsCompletion unit :=
  call_closure (call_nested (stack_room h)) w args h.

(** Running a timer callback.  What [fn] throws inside one reaches no
    caller. *)
Definition run_callback (cb : Callback) (h : Host) : Host :=
  match cb with
  | ThrottleExpiry w => assign_timer w None h
  | DebounceFire w args =>
      match nth_error (wrappers h) w with
      | Some c =>
          fst (run_script (call_nested (stack_room h))
                 (fn c (List.length (invocations h)) args)
                 (record_invocation w args h))
      | None => record_invocation w args h
      end
  end.

(** The host fires timer [x], the rest of the queue being [q]. *)
Definition fire (x : Timer) (q : list Timer) (h : Host) : Host :=
  run_callback (callback x) (set_timers q (set_now (Nat.max (now h) (due x)) h)).


(** Fire the first timer of the queue as long as it is due at time [t],
    [rounds] times at most. *)
Fixpoint fire_due (rounds : nat) (t : nat) (h : Host) : Host :=
  match rounds with
  | O => h
  | S rounds' =>
      match timers h with
      | [] => h
      | x :: q => if (due x <=? t)%nat then fire_due rounds' t (fire x q h) else h
      end
  end.

(** The clock reaches [t]: the timers that are scheduled and due by then
    fire in order.  A timer that one of their callbacks schedules waits for
    a later step. *)
Definition advance (t : nat) (h : Host) : Host :=
  let h' := fire_due (List.length (timers h)) t h in
  set_now (Nat.max (now h') t) h'.





(** Wrapper [w] is called at each of the given times. *)
Definition call_at (w : nat) (h : Host) (c : nat * Args) : Host :=
  fst (call_wrapper w (snd c) (advance (fst c) h)).

Definition calls_at (w : nat) (cs : list (nat * Args)) (h : Host) : Host :=
  fold_left (call_at w) cs h.

Definition invocations_of (w : nat) (h : Host) : list Invocation :=
  filter (fun i => (callee i =? w)%nat) (invocations h).




(** [fn] calls no wrapper. *)
Definition leaf (c : Wrapper) : Prop :=
  forall k args, exists outcome, fn c k args = Finish outcome.






(** *** Hosts the statements are tried on *)

Definition arg (z : Z) : Args := [VNumber (JsNumber.of_Z z)].


(** [(x) => { if (x === 1) w(2) }], where [w] is the first wrapper of the
    page: the function calls its own wrapper when its argument is [1]. *)
Definition calls_own_wrapper : Callee :=
  fun _ args =>
    match args with
    | VNumber n :: _ =>
        if JsNumber.equal n (JsNumber.of_Z 1) then CallThen 0 (arg 2) Finish
        else Finish (Normal tt)
    | _ => Finish (Normal tt)
    end.


Definition reentrant_host : Host := snd (throttle calls_own_wrapper 100 initial).


End Timers.

(** ** More array helpers of [src/index.ts] *)
Module ArrayHelpers.
Import JsNumber JsArray.
Local Open Scope list_scope.

(** ToIntegerOrInfinity of a finite number: truncation towards zero. *)
Definition truncate (q : Q) : Z :=
  if Qle_bool 0 q then Qfloor q else Qceiling q.

(** ToIntegerOrInfinity([index]) as [splice] uses it on an array of [len]
    slots: [NaN] is [0], and an infinity acts as the matching end of the
    array. *)
Definition relative_index (index : number) (len : Z) : Z :=
  match index with
  | NaN => 0%Z
  | Infinity false => len
  | Infinity true => (- len)%Z
  | Finite q => truncate q
  end.

(** [removeAtIndex(array, index)]: the returned array, and [array]
    afterwards. *)
Definition removeAtIndex (a : array) (index : number) : array * array :=
  splice (relative_index index (Z.of_nat (List.length a))) 1 a.

(** [[...a]]: iterating an array reads a hole as [undefined]. *)
Definition spread (a : array) : array :=
  map (fun slot => Some (slot_value slot)) a.

(** [merge(a, b)] *)
Definition merge (a b : array) : array := spread a ++ spread b.

(** [a[i] = v]: past the end, the array grows and the gap is holes. *)
Definition set_index (a : array) (i : nat) (v : value) : array :=
  if (i <? List.length a)%nat then firstn i a ++ Some v :: skipn (S i) a
  else a ++ repeat None (i - List.length a) ++ [Some v].

(** One round of the loop: slots [i] and [m] change places. *)
Definition swap_slots (a : array) (i m : nat) : array :=
  set_index (set_index a m (get a i)) i (get a m).

(** The loop of [shuffle(array)], entered with [m] slots still to place.
    [draw m] is what [Math.floor(Math.random() * m)] gives in the round
    that starts with that [m]. *)
Fixpoint shuffle_from (draw : nat -> nat) (m : nat) (a : array) : array :=
  match m with
  | O => a
  | S m' =>
      let i := draw m in
      let t := get a m' in
      let a := set_index a m' (get a i) in
      let a := set_index a i t in
      shuffle_from draw m' a
  end.

(** [shuffle(array)]: the array as the call leaves and returns it. *)
Definition shuffle (draw : nat -> nat) (a : array) : array :=
  shuffle_from draw (List.length a) a.

(** [Math.random()] is below 1, so a draw is below its bound. *)
Definition fair (draw : nat -> nat) : Prop :=
  forall m, (0 < m)%nat -> (draw m < m)%nat.

Definition dense (a : array) : Prop := Forall (fun slot => slot <> None) a.

End ArrayHelpers.

(** ** Regular expressions, as far as [isEmail] and [isPhone] use them

    A pattern between [^] and [$], without flags, accepts a string when the
    whole string is in its language; [test] decides that by derivatives. *)
Module JsRegExp.
Local Open Scope list_scope.

Inductive regex : Type :=
| Never
| Empty
| Class (p : ascii -> bool)
| Seq (r s : regex)
| Alt (r s : regex)
| Star (r : regex).

Fixpoint nullable (r : regex) : bool :=
  match r with
  | Never => false
  | Empty => true
  | Class _ => false
  | Seq r s => nullable r && nullable s
  | Alt r s => nullable r || nullable s
  | Star _ => true
  end.

Fixpoint derive (c : ascii) (r : regex) : regex :=
  match r with
  | Never => Never
  | Empty => Never
  | Class p => if p c then Empty else Never
  | Seq r s =>
      if nullable r then Alt (Seq (derive c r) s) (derive c s)
      else Seq (derive c r) s
  | Alt r s => Alt (derive c r) (derive c s)
  | Star r => Seq (derive c r) (Star r)
  end.

Fixpoint matches (r : regex) (cs : list ascii) : bool :=
  match cs with
  | [] => nullable r
  | c :: cs' => matches (derive c r) cs'
  end.

(** [/^r$/.test(s)] *)
Definition test (r : regex) (s : string) : bool :=
  matches r (list_ascii_of_string s).

(** [r+] and [r{n}] *)
Definition plus (r : regex) : regex := Seq r (Star r).

Fixpoint times (n : nat) (r : regex) : regex :=
  match n with
  | O => Empty
  | S n' => Seq r (times n' r)
  end.

Definition between (lo hi : Z) (c : ascii) : bool :=
  ((lo <=? StringToNumber.code c) && (StringToNumber.code c <=? hi))%Z.

(** [\d] and [\w] *)
Definition is_digit (c : ascii) : bool := between 48 57 c.

Definition is_word (c : ascii) : bool :=
  between 97 122 c || between 65 90 c || is_digit c || Ascii.eqb c "_".

(** A class that lists its characters, as [[-+.]] does. *)
Definition one_of (chars : string) (c : ascii) : bool :=
  existsb (Ascii.eqb c) (list_ascii_of_string chars).

(** The language of a pattern. *)
Inductive lang : regex -> list ascii -> Prop :=
| lang_Empty : lang Empty []
| lang_Class (p : ascii -> bool) (c : ascii) : p c = true -> lang (Class p) [c]
| lang_Seq (r s : regex) (u v : list ascii) :
    lang r u -> lang s v -> lang (Seq r s) (u ++ v)
| lang_Alt_l (r s : regex) (u : list ascii) : lang r u -> lang (Alt r s) u
| lang_Alt_r (r s : regex) (u : list ascii) : lang s u -> lang (Alt r s) u
| lang_Star_nil (r : regex) : lang (Star r) []
| lang_Star_more (r : regex) (u v : list ascii) :
    lang r u -> lang (Star r) v -> lang (Star r) (u ++ v).

(** Every class of the pattern accepts only characters that satisfy [P]. *)
Fixpoint classes_within (P : ascii -> Prop) (r : regex) : Prop :=
  match r with
  | Never | Empty => True
  | Class p => forall c, p c = true -> P c
  | Seq r s | Alt r s => classes_within P r /\ classes_within P s
  | Star r => classes_within P r
  end.

(** No two neighbours are both outside [\w], the string does not end outside
    [\w], and it does not start outside [\w] unless [after_word] says that a
    word character came just before. *)
Fixpoint alternates (after_word : bool) (s : list ascii) : bool :=
  match s with
  | [] => after_word
  | c :: s' =>
      if is_word c then alternates true s'
      else after_word && alternates false s'
  end.

(** [/^1[3456789]\d{9}$/] *)
Definition phone_pattern : regex :=
  Seq (Class (one_of "1")) (Seq (Class (one_of "3456789")) (times 9 (Class is_digit))).

(** [\w+([-+.]\w+)*], [\w+([-.]\w+)*] and [\w+([-.]\w+)*\.\w+([-.]\w+)*] *)
Definition local_part : regex :=
  Seq (plus (Class is_word)) (Star (Seq (Class (one_of "-+.")) (plus (Class is_word)))).

Definition labels : regex :=
  Seq (plus (Class is_word)) (Star (Seq (Class (one_of "-.")) (plus (Class is_word)))).

Definition domain_part : regex :=
  Seq labels (Seq (Class (one_of ".")) labels).

(** [/^\w+([-+.]\w+)*@\w+([-.]\w+)*\.\w+([-.]\w+)*$/] *)
Definition email_pattern : regex :=
  Seq local_part (Seq (Class (one_of "@")) domain_part).

(** [emailRegex], [isEmail(email)] and [isPhone(phone)] *)
Definition emailRegex : regex := email_pattern.

Definition isEmail (email : string) : bool := test email_pattern email.

Definition isPhone (phone : string) : bool := test phone_pattern phone.

End JsRegExp.

(** ** [toTitleCase]

    [str.replace(/\w\S*/g, f)] walks the string once: outside a match the
    next character of [\w] opens one, and the match runs on up to the next
    white space or the end.  [f] puts the first character of the match in
    upper case and the others in lower case.  Strings hold code units below
    U+0100, where [toLowerCase] works character by character; the first
    character of a match is of [\w], where [toUpperCase] does too. *)
Module TitleCase.
Import StringToNumber JsRegExp.

Definition shift (c : ascii) (by_ : Z) : ascii := ascii_of_N (Z.to_N (code c + by_)).

(** [c.toUpperCase()] for [c] of [\w] *)
Definition toUpperCase_word (c : ascii) : ascii :=
  if between 97 122 c then shift c (-32) else c.

(** [c.toLowerCase()] for [c] below U+0100 *)
Definition toLowerCase_char (c : ascii) : ascii :=
  if between 65 90 c || between 192 214 c || between 216 222 c
  then shift c 32 else c.

Fixpoint replace_from (in_match : bool) (s : string) : string :=
  match s with
  | EmptyString => EmptyString
  | String c s' =>
      if in_match then
        if is_whitespace c then String c (replace_from false s')
        else String (toLowerCase_char c) (replace_from true s')
      else if is_word c then String (toUpperCase_word c) (replace_from true s')
      else String c (replace_from false s')
  end.

Definition toTitleCase (str : string) : string := replace_from false str.

(** [s.toLowerCase()] *)
Fixpoint toLowerCase (s : string) : string :=
  match s with
  | EmptyString => EmptyString
  | String c s' => String (toLowerCase_char c) (toLowerCase s')
  end.

End TitleCase.

(** ** [groupBy]

    The items are objects of some type [T]; [property item] is the name that
    [item[key]] stands for when it is used as a property key.  The result
    starts as [{}], so a name it has no own property for is looked up on
    [Object.prototype], which is taken as the language defines it. *)
Module GroupBy.
Local Open Scope list_scope.
Local Close Scope Q_scope.

Definition Object_prototype : list string :=
  [ "constructor"; "__defineGetter__"; "__defineSetter__"; "hasOwnProperty";
    "__lookupGetter__"; "__lookupSetter__"; "isPrototypeOf";
    "propertyIsEnumerable"; "toString"; "valueOf"; "__proto__";
    "toLocaleString" ].

Definition inherited (name : string) : bool :=
  existsb (String.eqb name) Object_prototype.

Section WithItems.
Variable T : Type.
Variable property : T -> string.

(** The own properties of the result, in the order they were created. *)
Definition record : Type := list (string * list T).

Inductive looked_up : Type :=
| Own (group : list T)
| Inherited
| Absent.

Fixpoint own (result : record) (name : string) : option (list T) :=
  match result with
  | [] => None
  | (n, group) :: rest => if String.eqb n name then Some group else own rest name
  end.

(** [result[name]] *)
Definition get_property (result : record) (name : string) : looked_up :=
  match own result name with
  | Some group => Own group
  | None => if inherited name then Inherited else Absent
  end.

(** An array, a function and an object are all truthy. *)
Definition truthy (v : looked_up) : bool :=
  match v with
  | Own _ => true
  | Inherited => true
  | Absent => false
  end.

(** [result[name] = group], for a name that is not an accessor of
    [Object.prototype] *)
Fixpoint set_property (result : record) (name : string) (group : list T) : record :=
  match result with
  | [] => [(name, group)]
  | (n, g) :: rest =>
      if String.eqb n name then (n, group) :: rest
      else (n, g) :: set_property rest name group
  end.

(** The callback of [reduce]. *)
Definition collect (result : record) (currentValue : T)
  : completion value record :=
  let groupKey := property currentValue in
  let result :=
    if negb (truthy (get_property result groupKey))
    then set_property result groupKey []
    else result in
  match get_property result groupKey with
  | Own group => Normal (set_property result groupKey (group ++ [currentValue]))
  | Inherited => Throw (TypeError "result[groupKey].push is not a function")
  | Absent => Throw (TypeError "Cannot read properties of undefined (reading 'push')")
  end.

(** [array.reduce(callback, initial)]; holes are passed over. *)
Fixpoint reduce (callback : record -> T -> completion value record)
    (array : list (option T)) (accumulator : record) : completion value record :=
  match array with
  | [] => Normal accumulator
  | None :: rest => reduce callback rest accumulator
  | Some item :: rest =>
      next <- callback accumulator item ;; reduce callback rest next
  end.

Definition groupBy (array : list (option T)) : completion value record :=
  reduce collect array [].

(** The items of an array, and those of them filed under a name. *)
Fixpoint items (array : list (option T)) : list T :=
  match array with
  | [] => []
  | None :: rest => items rest
  | Some item :: rest => item :: items rest
  end.

Definition filed_under (name : string) (array : list (option T)) : list T :=
  filter (fun item => String.eqb (property item) name) (items array).

(** No own property hides one of [Object.prototype]. *)
Definition clean (result : record) : Prop :=
  forall name, inherited name = true -> own result name = None.

End WithItems.
End GroupBy.

(** ** How often a throttled function runs *)
Module ThrottleRate.
Import Timers.
Local Open Scope list_scope.
Local Close Scope Q_scope.






End ThrottleRate.

(** ** [parseQueryString]

    [decodeURIComponent] is the host's; the parser is modelled over any
    function in its place.  A decoder may throw (a URIError, for a
    malformed escape).  The result is the list of the own properties of the
    object in the order the object lists them: the names that are array
    indices first, by ascending value, then the others in the order they
    were created. *)
Module QueryString.
Local Open Scope list_scope.
Local Close Scope Q_scope.

(** [s.replace(/^\?/, '')] *)
Definition strip_question (s : string) : string :=
  match s with
  | String c rest => if Ascii.eqb c "?" then rest else s
  | EmptyString => s
  end.

(** [s.split(sep)] for a separator of one character; [current] is the
    piece being read. *)
Fixpoint split_from (sep : ascii) (current s : string) : list string :=
  match s with
  | EmptyString => [current]
  | String c s' =>
      if Ascii.eqb c sep then current :: split_from sep EmptyString s'
      else split_from sep (current ++ String c EmptyString) s'
  end.

Definition split (sep : ascii) (s : string) : list string :=
  split_from sep EmptyString s.

Definition entries : Type := list (string * string).

Fixpoint own (acc : entries) (name : string) : option string :=
  match acc with
  | [] => None
  | (n, v) :: rest => if String.eqb n name then Some v else own rest name
  end.

(** The array index a property name stands for: a decimal numeral without
    a leading zero, below [2^32 - 1]. *)
Fixpoint decimal (acc : N) (s : string) : option N :=
  match s with
  | EmptyString => Some acc
  | String c s' =>
      if JsRegExp.is_digit c
      then decimal (10 * acc + Z.to_N (StringToNumber.code c - 48)) s'
      else None
  end.

Definition array_index (name : string) : option N :=
  match name with
  | EmptyString => None
  | String c rest =>
      if Ascii.eqb c "0" && negb (String.eqb rest EmptyString) then None
      else match decimal 0 name with
           | Some n => if (n <? 4294967295)%N then Some n else None
           | None => None
           end
  end.

(** Writing to a property that exists leaves it where it is. *)
Fixpoint replace (acc : entries) (name value : string) : entries :=
  match acc with
  | [] => []
  | (n, v) :: rest =>
      if String.eqb n name then (n, value) :: rest
      else (n, v) :: replace rest name value
  end.

(** A new property whose name is the array index [i] goes before the first
    property that is not an array index or is a greater one. *)
Fixpoint place (i : N) (name value : string) (acc : entries) : entries :=
  match acc with
  | [] => [(name, value)]
  | (n, v) :: rest =>
      match array_index n with
      | Some j => if (j <? i)%N then (n, v) :: place i name value rest
                  else (name, value) :: acc
      | None => (name, value) :: acc
      end
  end.

Definition define (acc : entries) (name value : string) : entries :=
  match own acc name with
  | Some _ => replace acc name value
  | None =>
      match array_index name with
      | Some i => place i name value acc
      | None => acc ++ [(name, value)]
      end
  end.

(** [acc[name] = value].  Assigning a string to [__proto__] goes to the
    setter of [Object.prototype], which ignores what is not an object. *)
Definition assign (acc : entries) (name value : string) : entries :=
  if String.eqb name "__proto__" then acc else define acc name value.

(** [value || ''] for the second element of the destructured array *)
Definition or_empty (value : option string) : string :=
  match value with
  | Some v => v
  | None => EmptyString
  end.

Section WithDecoder.
Variable decodeURIComponent : string -> JsCompletion string.

(** The callback of [reduce]. *)
Definition parse_pair (acc : entries) (pair : string) : JsCompletion entries :=
  let parts := split "=" pair in
  let key := hd EmptyString parts in
  let value := nth_error parts 1 in
  name <- decodeURIComponent key ;;
  decoded <- decodeURIComponent (or_empty value) ;;
  Normal (assign acc name decoded).

Fixpoint reduce (callback : entries -> string -> JsCompletion entries)
    (array : list string) (accumulator : entries) : JsCompletion entries :=
  match array with
  | [] => Normal accumulator
  | item :: rest => next <- callback accumulator item ;; reduce callback rest next
  end.

Definition parseQueryString (queryString : string) : JsCompletion entries :=
  reduce parse_pair (split "&" (strip_question queryString)) [].

End WithDecoder.

(** *** Writing a query string *)

Definition free_of (chars : string) (s : string) : bool :=
  forallb (fun c => negb (JsRegExp.one_of chars c)) (list_ascii_of_string s).

(** What [decodeURIComponent] does to a string without an escape. *)
Definition keeps_plain_text (decode : string -> JsCompletion string) : Prop :=
  forall s, free_of "%" s = true -> decode s = Normal s.

(** The part of [s] before the first [sep]. *)
Fixpoint before (sep : ascii) (s : string) : string :=
  match s with
  | EmptyString => EmptyString
  | String c s' => if Ascii.eqb c sep then EmptyString else String c (before sep s')
  end.

Definition pair_text (kv : string * string) : string :=
  (fst kv ++ "=" ++ snd kv)%string.

Fixpoint join (sep : string) (pieces : list string) : string :=
  match pieces with
  | [] => EmptyString
  | [piece] => piece
  | piece :: rest => (piece ++ sep ++ join sep rest)%string
  end.

(** [?k1=v1&k2=v2...] *)
Definition render (pairs : entries) : string :=
  String "?" (join "&" (map pair_text pairs)).

(** The value of the last pair with the given key. *)
Fixpoint last_value (pairs : entries) (name : string) : option string :=
  match pairs with
  | [] => None
  | (n, v) :: rest =>
      match last_value rest name with
      | Some later => Some later
      | None => if String.eqb n name then Some v else None
      end
  end.

Definition writable (kv : string * string) : Prop :=
  free_of "&=%" (fst kv) = true /\ free_of "&%" (snd kv) = true
  /\ fst kv <> "__proto__".

End QueryString.

(** * Properties of the type predicates *)

Section NumberFacts.
Import JsNumber.

Lemma Q_is_integer_iff (q : Q) :
  Q_is_integer q = true <-> exists z : Z, q == inject_Z z.
Proof.
  unfold Q_is_integer, Qeq. simpl. split.
  - intros H. apply Z.eqb_eq in H. exists (Qnum q / Zpos (Qden q))%Z.
    rewrite Z.mul_1_r.
    pose proof (Z.div_mod (Qnum q) (Zpos (Qden q))) as D.
    rewrite H in D. lia.
  - intros [z H]. apply Z.eqb_eq. rewrite Z.mul_1_r in H. rewrite H.
    apply Z.mod_mul. lia.
Qed.

Lemma Qle_bool_compat_l (a b c : Q) : a == b -> Qle_bool c a = Qle_bool c b.
Proof.
  intros E. destruct (Qle_bool c a) eqn:A, (Qle_bool c b) eqn:B; try reflexivity.
  - apply Qle_bool_iff in A. rewrite E in A. apply Qle_bool_iff in A. congruence.
  - apply Qle_bool_iff in B. rewrite <- E in B. apply Qle_bool_iff in B. congruence.
Qed.

Lemma Qle_bool_compat_r (a b c : Q) : a == b -> Qle_bool a c = Qle_bool b c.
Proof.
  intros E. destruct (Qle_bool a c) eqn:A, (Qle_bool b c) eqn:B; try reflexivity.
  - apply Qle_bool_iff in A. rewrite E in A. apply Qle_bool_iff in A. congruence.
  - apply Qle_bool_iff in B. rewrite <- E in B. apply Qle_bool_iff in B. congruence.
Qed.

Lemma lt_compat (a b : Q) (y : number) :
  a == b -> lt (Finite a) y = lt (Finite b) y.
Proof.
  intros E. destruct y as [|neg|c]; simpl; try reflexivity.
  f_equal. apply Qle_bool_compat_l. exact E.
Qed.

Lemma ge_zero (q : Q) : ge (Finite q) (of_Z 0) = Qle_bool 0 q.
Proof. unfold ge, lt, of_Z. simpl. apply negb_involutive. Qed.

Lemma lt_of_Z_of_nat (z : Z) (n : nat) :
  lt (of_Z z) (of_nat n) = true <-> (z < Z.of_nat n)%Z.
Proof.
  unfold lt, of_nat, of_Z. rewrite negb_true_iff. split.
  - intros H. destruct (Z_lt_le_dec z (Z.of_nat n)) as [L|L]; [exact L|].
    assert (T : Qle_bool (inject_Z (Z.of_nat n)) (inject_Z z) = true)
      by (apply Qle_bool_iff; rewrite <- Zle_Qle; exact L).
    congruence.
  - intros L. destruct (Qle_bool (inject_Z (Z.of_nat n)) (inject_Z z)) eqn:T; [|reflexivity].
    apply Qle_bool_iff in T. rewrite <- Zle_Qle in T. lia.
Qed.

End NumberFacts.

Section PredicateFacts.
Import JsNumber.

Lemma isIndexOf_coerced (idx array : value) :
  isIndexOf idx array =
  match coerced idx with
  | VNumber n =>
      if index_test n
      then length <- get_length array ;; less_than n length
      else Normal false
  | _ => Normal false
  end.
Proof.
  destruct idx as [| |b|n|s|id|z|ref o]; try reflexivity.
  destruct s; reflexivity.
Qed.

Lemma isIndexOf_array_like (idx array : value) (len : number) :
  array_like array len ->
  isIndexOf idx array =
  match coerced idx with
  | VNumber n => Normal (index_test n && JsNumber.lt n len)
  | _ => Normal false
  end.
Proof.
  intros L. rewrite isIndexOf_coerced. unfold array_like in L.
  destruct (coerced idx); try reflexivity.
  rewrite L. destruct (index_test n); reflexivity.
Qed.

Lemma index_test_iff (n : number) :
  index_test n = true
  <-> exists (q : Q) (z : Z), n = Finite q /\ q == inject_Z z /\ (0 <= z)%Z.
Proof.
  unfold index_test. split.
  - intros H.
    apply andb_true_iff in H as [H Hge]. apply andb_true_iff in H as [_ Hint].
    destruct n as [|neg|q]; try discriminate.
    simpl in Hint. apply Q_is_integer_iff in Hint. destruct Hint as [z Hz].
    exists q, z. split; [reflexivity|]. split; [exact Hz|].
    rewrite ge_zero in Hge. apply Qle_bool_iff in Hge. rewrite Hz in Hge.
    change 0 with (inject_Z 0) in Hge. rewrite <- Zle_Qle in Hge. exact Hge.
  - intros (q & z & -> & Hz & Hpos).
    change (isInteger (Finite q)) with (Q_is_integer q).
    change (negb (isNaN (Finite q))) with true. rewrite ge_zero.
    assert (I : Q_is_integer q = true) by (apply Q_is_integer_iff; eauto).
    assert (P : Qle_bool 0 q = true).
    { apply Qle_bool_iff. rewrite Hz. change 0 with (inject_Z 0).
      rewrite <- Zle_Qle. exact Hpos. }
    rewrite I, P. reflexivity.
Qed.

Lemma index_below_iff (n len : number) :
  index_test n && JsNumber.lt n len = true <-> is_index_below (VNumber n) len.
Proof.
  unfold is_index_below. rewrite andb_true_iff, index_test_iff. split.
  - intros [(q & z & -> & Hz & Hpos) Hlt]. exists q, z.
    repeat split; try assumption.
    unfold of_Z. rewrite <- (lt_compat q (inject_Z z) len Hz). exact Hlt.
  - intros (q & z & E & Hz & Hpos & Hlt). injection E as ->. split.
    + exists q, z. auto.
    + rewrite (lt_compat q (inject_Z z) len Hz). exact Hlt.
Qed.

Lemma isIndexOf_true_iff (idx array : value) (len : number) :
  array_like array len ->
  (isIndexOf idx array = Normal true <-> is_index_below (coerced idx) len).
Proof.
  intros L. rewrite (isIndexOf_array_like idx array len L).
  destruct (coerced idx) as [| |b|n|s|id|z|ref o] eqn:E;
    try (split; [discriminate | intros (q & z' & D & _); discriminate]).
  rewrite <- index_below_iff. split; [congruence | intros ->; reflexivity].
Qed.

Lemma isIndexOf_no_index (idx array : value) :
  (forall n, coerced idx = VNumber n -> index_test n = false) ->
  isIndexOf idx array = Normal false.
Proof.
  intros H. rewrite isIndexOf_coerced.
  destruct (coerced idx) as [| |b|n|s|id|z|ref o]; try reflexivity.
  rewrite (H n eq_refl). reflexivity.
Qed.

Lemma less_than_throws (n : number) (p : primitive) (e : thrown value) :
  less_than n p = Throw e
  <-> exists id, p = PSymbol id
                 /\ e = TypeError "Cannot convert a Symbol value to a number".
Proof.
  split.
  - destruct p; try discriminate. simpl. intros H. injection H as <-. eauto.
  - intros (id & -> & ->). reflexivity.
Qed.

Lemma get_length_throws (array : value) (e : thrown value) :
  get_length array = Throw e
  <-> ((array = VUndefined \/ array = VNull) /\ e = TypeError "cannot read properties")
      \/ exists ref x, array = VObject ref (OHasLength (ReadThrows x)) /\ e = Thrown x.
Proof.
  split.
  - destruct array as [| |b|m|s|id|z|ref o]; try discriminate; simpl.
    + intros H. injection H as <-. auto.
    + intros H. injection H as <-. auto.
    + destruct o as [| | | | | | | |l|r|]; try discriminate.
      destruct r as [p|x]; [discriminate|].
      intros H. injection H as <-. right. eauto.
  - intros [[[->| ->] ->]|(ref & x & -> & ->)]; reflexivity.
Qed.

Lemma isIndexOf_throws (idx array : value) (e : thrown value) :
  isIndexOf idx array = Throw e
  <-> (exists n, coerced idx = VNumber n /\ index_test n = true)
      /\ (get_length array = Throw e
          \/ exists id, get_length array = Normal (PSymbol id)
                        /\ e = TypeError "Cannot convert a Symbol value to a number").
Proof.
  rewrite isIndexOf_coerced. split.
  - destruct (coerced idx) as [| |b|n|s|id|z|ref o]; try discriminate.
    destruct (index_test n) eqn:T; [|discriminate].
    intros H. split; [eauto|].
    destruct (get_length array) as [p|e']; simpl in H.
    + apply less_than_throws in H. destruct H as (id & -> & ->). right. eauto.
    + left. injection H as ->. reflexivity.
  - intros [(n & -> & T) H]. rewrite T.
    destruct H as [->|(id & -> & ->)]; reflexivity.
Qed.

Lemma isIndexOf_returns (idx array : value) (p : primitive) :
  get_length array = Normal p -> (forall id, p <> PSymbol id) ->
  returns_boolean (isIndexOf idx array).
Proof.
  intros L S. destruct (isIndexOf idx array) as [b|e] eqn:E; [exists b; reflexivity|].
  exfalso. apply isIndexOf_throws in E. destruct E as [_ [E|(id & E & _)]].
  - congruence.
  - rewrite L in E. injection E as ->. exact (S id eq_refl).
Qed.

Lemma typeof_string (v : value) : typeof v = "string" <-> exists s, v = VString s.
Proof.
  split.
  - destruct v as [| |b|n|s|id|z|ref o]; try discriminate; eauto.
    destruct o; discriminate.
  - intros [s ->]. reflexivity.
Qed.

Lemma typeof_number (v : value) : typeof v = "number" <-> exists n, v = VNumber n.
Proof.
  split.
  - destruct v as [| |b|n|s|id|z|ref o]; try discriminate; eauto.
    destruct o; discriminate.
  - intros [s ->]. reflexivity.
Qed.

Lemma typeof_function (v : value) :
  typeof v = "function" <-> exists ref f n b m, v = VObject ref (OFunction f n b m).
Proof.
  split.
  - destruct v as [| |b|n|s|id|z|ref o]; try discriminate.
    destruct o; try discriminate. eauto 6.
  - intros (ref & f & n & b & m & ->). reflexivity.
Qed.

Lemma isAsyncFunction_not_function (v : value) :
  typeof v <> "function" -> isAsyncFunction v = Normal false.
Proof.
  intros H. unfold isAsyncFunction.
  destruct (String.eqb_spec (typeof v) "function"); [contradiction | reflexivity].
Qed.

Lemma isAsyncFunction_plain (ref : nat) (f : function_syntax) (n : nat) (b : behaviour) :
  isAsyncFunction (plain_function ref f n b)
  = Normal (String.prefix "async" (source_text f)).
Proof. reflexivity. Qed.

Lemma prefix_append (p s : string) : String.prefix p (p ++ s) = true.
Proof.
  induction p as [|c p IH]; simpl.
  - destruct s; reflexivity.
  - destruct (ascii_dec c c); [exact IH | contradiction].
Qed.

Lemma declared_async_text (f : function_syntax) :
  declared_async f = true -> String.prefix "async" (source_text f) = true.
Proof.
  destruct f as [[] sep tail|[] tail|[] tail|tail|name]; try discriminate;
    intros _; unfold source_text; apply prefix_append.
Qed.

End PredicateFacts.

Section PredicateTheorems.
Import JsNumber.

(** The expectations of [src/index.test.ts], row by row. *)
Example index_test_ts :
  map (fun idx => isIndexOf idx array_123)
      [VNumber (of_Z 0); VNumber (of_Z 1); VNumber (of_Z 2); VNumber (of_Z 3);
       VString "0"; VString "1"; VString "2"; VString "3";
       VNumber (of_Z (-1)); VNumber (Finite (3 # 2)); VNull; VUndefined;
       VBoolean true; VObject 2 OPlain; VObject 3 (OArray []);
       plain_function 4 (ArrowForm false "() => { }") 0 (Returns VUndefined);
       VObject 5 ODate; VObject 6 OSet; VObject 7 OMap; VSymbol 8;
       VObject 9 OError; VObject 10 ORegExp]
  = map Normal
      [true; true; true; false; true; true; true; false;
       false; false; false; false; false; false; false; false;
       false; false; false; false; false; false]
  /\ isPromise (VObject 11 OPromise) = Normal true
  /\ isPromise (VNumber (of_Z 165)) = Normal false
  /\ isAsyncFunction
       (plain_function 12 (ArrowForm true " () => { }") 0 (Returns (VObject 13 OPromise)))
     = Normal true
  /\ isAsyncFunction
       (plain_function 14 (ArrowForm false "() => { }") 0 (Returns VUndefined))
     = Normal false.
Proof. repeat split; vm_compute; reflexivity. Qed.

(** C4.  On an array-like [array], [isIndexOf(idx, array)] returns [true]
    exactly when [idx], after the numeric coercion of a non-empty string,
    is an integer in [[0, array.length)], and [false] otherwise; it rejects
    non-integer, negative and out-of-range numbers, the empty string, and
    every value that is neither a string nor a number; on [[1,2,3]] it
    accepts [0] and ['2'] and rejects [3], [-1], [1.5] and [null]. *)
Theorem isIndexOf_contract :
  (forall idx array len,
      array_like array len ->
      (isIndexOf idx array = Normal true <-> is_index_below (coerced idx) len))
  /\ (forall idx array len,
      array_like array len ->
      (isIndexOf idx array = Normal false <-> ~ is_index_below (coerced idx) len))
  /\ (forall idx ref (a : list (option value)),
      isIndexOf idx (VObject ref (OArray a)) = Normal true
      <-> exists q z, coerced idx = VNumber (Finite q) /\ q == inject_Z z
                      /\ (0 <= z < Z.of_nat (List.length a))%Z)
  /\ (forall n array,
      JsNumber.isInteger n = false -> isIndexOf (VNumber n) array = Normal false)
  /\ (forall q array,
      q < 0 -> isIndexOf (VNumber (Finite q)) array = Normal false)
  /\ (forall n array len,
      array_like array len -> JsNumber.lt n len = false
      -> isIndexOf (VNumber n) array = Normal false)
  /\ (forall array, isIndexOf (VString "") array = Normal false)
  /\ (forall idx array,
      typeof idx <> "string" -> typeof idx <> "number"
      -> isIndexOf idx array = Normal false)
  /\ isIndexOf (VNumber (of_Z 0)) array_123 = Normal true
  /\ isIndexOf (VNumber (of_Z 3)) array_123 = Normal false
  /\ isIndexOf (VString "2") array_123 = Normal true
  /\ isIndexOf (VNumber (of_Z (-1))) array_123 = Normal false
  /\ isIndexOf (VNumber (Finite (3 # 2))) array_123 = Normal false
  /\ isIndexOf VNull array_123 = Normal false.
Proof.
  split; [exact isIndexOf_true_iff|].
  split.
  { intros idx array len L. rewrite <- (isIndexOf_true_iff idx array len L).
    rewrite (isIndexOf_array_like idx array len L).
    destruct (coerced idx) as [| |b|n|s|id|z|ref o];
      try (split; [discriminate | reflexivity]).
    destruct (index_test n && lt n len); split; congruence. }
  split.
  { intros idx ref a.
    rewrite (isIndexOf_true_iff idx (VObject ref (OArray a)) _ eq_refl).
    unfold is_index_below. split.
    - intros (q & z & E & Hz & Hpos & Hlt). exists q, z.
      apply lt_of_Z_of_nat in Hlt. auto.
    - intros (q & z & E & Hz & Hpos & Hlt). exists q, z.
      repeat split; auto. apply lt_of_Z_of_nat. exact Hlt. }
  split.
  { intros n array H. rewrite isIndexOf_coerced. simpl. unfold index_test.
    rewrite H, andb_false_r. reflexivity. }
  split.
  { intros q array H. rewrite isIndexOf_coerced. simpl. unfold index_test.
    rewrite ge_zero.
    destruct (Qle_bool 0 q) eqn:P.
    - apply Qle_bool_iff in P. exfalso. exact (Qlt_not_le _ _ H P).
    - rewrite andb_false_r. reflexivity. }
  split.
  { intros n array len L H. rewrite (isIndexOf_array_like _ array len L). simpl.
    rewrite H, andb_false_r. reflexivity. }
  split; [reflexivity|].
  split.
  { intros idx array Hs Hn. rewrite isIndexOf_coerced.
    destruct idx; try reflexivity; exfalso; [apply Hn | apply Hs]; reflexivity. }
  repeat split; vm_compute; reflexivity.
Qed.

(** C5, as amended.  [isAsyncFunction(v)] returns [true] exactly when [v]
    is callable and its own string representation begins with [async]; the
    answer does not depend on what calling [v] would do.  With the built-in
    [toString], a function declared [async] returns [true]; one not so
    declared returns [false], whatever it returns when called, unless its
    source text itself begins with the characters [async], which no
    [function] form, class or built-in does. *)
Theorem isAsyncFunction_contract :
  (forall v,
      isAsyncFunction v = Normal true
      <-> typeof v = "function"
          /\ exists s, invoke_toString v = Normal (VString s)
                       /\ String.prefix "async" s = true)
  /\ (forall ref f n b b' m,
      isAsyncFunction (VObject ref (OFunction f n b m))
      = isAsyncFunction (VObject ref (OFunction f n b' m)))
  /\ (forall ref f n b,
      declared_async f = true
      -> isAsyncFunction (plain_function ref f n b) = Normal true)
  /\ (forall ref f n b,
      declared_async f = false
      -> String.prefix "async" (source_text f) = false
      -> isAsyncFunction (plain_function ref f n b) = Normal false)
  /\ (forall ref sep tail n b,
      isAsyncFunction (plain_function ref (FunctionForm false sep tail) n b) = Normal false)
  /\ (forall ref tail n b,
      isAsyncFunction (plain_function ref (ClassForm tail) n b) = Normal false)
  /\ (forall ref name n b,
      isAsyncFunction (plain_function ref (NativeForm name) n b) = Normal false).
Proof.
  split.
  { intros v. unfold isAsyncFunction.
    destruct (String.eqb_spec (typeof v) "function") as [T|T].
    - split.
      + intros H. split; [exact T|].
        destruct (invoke_toString v) as [s|e]; [|discriminate].
        destruct s; try discriminate. simpl in H. injection H as H. eauto.
      + intros (_ & s & -> & P). simpl. rewrite P. reflexivity.
    - split; [discriminate | intros [T' _]; contradiction]. }
  split; [reflexivity|].
  split.
  { intros ref f n b H. rewrite isAsyncFunction_plain, declared_async_text; auto. }
  split.
  { intros ref f n b _ H. rewrite isAsyncFunction_plain, H. reflexivity. }
  repeat split; reflexivity.
Qed.

(** [isAsyncFunction_contract] at the arrow function [async () => { }]. *)
Lemma isAsyncFunction_contract_witness :
  isAsyncFunction (plain_function 1 (ArrowForm true " () => { }") 0 (Returns VUndefined))
  = Normal true.
Proof.
  apply (proj1 (proj2 (proj2 isAsyncFunction_contract))). reflexivity.
Defined.

(** C5 as first stated fails: [asyncLoad_method] is not declared [async],
    has the built-in [toString], and is answered [true]. *)
Lemma isAsyncFunction_misjudges_method :
  declared_async asyncLoad_syntax = false
  /\ isAsyncFunction asyncLoad_method = Normal true.
Proof. split; reflexivity. Qed.

(** C7, as amended.  [isArray], [isIndexable], [isString], [isNumber] and
    [isPromise] return a boolean for every input, [true] on the class they
    accept and [false] outside it.  [isIndexOf] returns [false] without
    looking at [array] unless [idx] coerces to a non-negative integer; for
    such an [idx] it throws exactly when reading [array.length] throws
    ([array] is [undefined] or [null], or the property is a getter that
    throws) or gives a Symbol, and returns a boolean otherwise.
    [isAsyncFunction] returns [false] for every value that is not a
    function and a boolean for every function whose [toString] is the
    built-in one or returns a string; it throws exactly when calling
    [toString] throws or what it returns has no [startsWith], as on a
    function that inherits no [toString] at all, or whose [toString] is
    not callable, throws, or returns a primitive that is not a string. *)
Theorem predicates_return_booleans :
  (forall idx array e,
      isIndexOf idx array = Throw e
      <-> (exists n, coerced idx = VNumber n /\ index_test n = true)
          /\ (get_length array = Throw e
              \/ exists id, get_length array = Normal (PSymbol id)
                            /\ e = TypeError "Cannot convert a Symbol value to a number"))
  /\ (forall array e,
      get_length array = Throw e
      <-> ((array = VUndefined \/ array = VNull) /\ e = TypeError "cannot read properties")
          \/ exists ref x, array = VObject ref (OHasLength (ReadThrows x)) /\ e = Thrown x)
  /\ (forall idx array p,
      get_length array = Normal p -> (forall id, p <> PSymbol id)
      -> returns_boolean (isIndexOf idx array))
  /\ (forall idx array,
      (forall n, coerced idx = VNumber n -> index_test n = false)
      -> isIndexOf idx array = Normal false)
  /\ (forall v, returns_boolean (isArray v))
  /\ (forall v, returns_boolean (isIndexable v))
  /\ (forall v, returns_boolean (isString v))
  /\ (forall v, returns_boolean (isNumber v))
  /\ (forall v, returns_boolean (isPromise v))
  /\ (forall v, isArray v = Normal true <-> exists ref a, v = VObject ref (OArray a))
  /\ (forall v, isIndexable v = Normal true
                <-> exists ref a, v = VObject ref (OArray a) /\ a <> [])
  /\ (forall v, isString v = Normal true <-> exists s, v = VString s)
  /\ (forall v, isNumber v = Normal true <-> exists n, v = VNumber n)
  /\ (forall v, isPromise v = Normal true <-> exists ref, v = VObject ref OPromise)
  /\ (forall v, typeof v <> "function" -> isAsyncFunction v = Normal false)
  /\ (forall ref f n b, returns_boolean (isAsyncFunction (plain_function ref f n b)))
  /\ (forall v s,
      invoke_toString v = Normal (VString s) -> returns_boolean (isAsyncFunction v))
  /\ (forall v e,
      isAsyncFunction v = Throw e
      <-> typeof v = "function"
          /\ (invoke_toString v = Throw e
              \/ exists r, invoke_toString v = Normal r
                           /\ invoke_startsWith r "async" = Throw e))
  /\ (forall v e,
      isAsyncFunction v = Throw e
      -> exists ref f n b,
           v = VObject ref (OFunction f n b Missing)
           \/ exists m, v = VObject ref (OFunction f n b (Replaced m)))
  /\ (forall ref f n b,
      isAsyncFunction (VObject ref (OFunction f n b Missing))
      = Throw (TypeError "func.toString is not a function"))
  /\ (forall ref f n b m,
      typeof m <> "function"
      -> isAsyncFunction (VObject ref (OFunction f n b (Replaced m)))
         = Throw (TypeError "not a function"))
  /\ (forall ref f n b r g k t x,
      isAsyncFunction
        (VObject ref (OFunction f n b (Replaced (VObject r (OFunction g k (Throws x) t)))))
      = Throw (Thrown x))
  /\ (forall ref f n b r g k t result,
      (forall s, result <> VString s) -> (forall r' o, result <> VObject r' o)
      -> exists e,
           isAsyncFunction
             (VObject ref (OFunction f n b (Replaced (VObject r (OFunction g k (Returns result) t)))))
           = Throw e).
Proof.
  split; [exact isIndexOf_throws|].
  split; [exact get_length_throws|].
  split; [exact isIndexOf_returns|].
  split; [exact isIndexOf_no_index|].
  split; [intros v; eexists; reflexivity|].
  split; [intros v; destruct v as [| | | | | | |ref []]; eexists; reflexivity|].
  split; [intros v; eexists; reflexivity|].
  split; [intros v; eexists; reflexivity|].
  split; [intros v; eexists; reflexivity|].
  split.
  { intros v. split.
    - destruct v as [| | | | | | |ref []]; try discriminate. eauto.
    - intros (ref & a & ->). reflexivity. }
  split.
  { intros v. split.
    - destruct v as [| | | | | | |ref []]; try discriminate.
      destruct elements; [discriminate|]. intros _.
      eexists _, _. split; [reflexivity|discriminate].
    - intros (ref & a & -> & N). destruct a; [contradiction|reflexivity]. }
  split.
  { intros v. rewrite <- typeof_string. unfold isString.
    destruct (String.eqb_spec (typeof v) "string"); split; congruence. }
  split.
  { intros v. rewrite <- typeof_number. unfold isNumber.
    destruct (String.eqb_spec (typeof v) "number"); split; congruence. }
  split.
  { intros v. split.
    - destruct v as [| | | | | | |ref []]; try discriminate. eauto.
    - intros (ref & ->). reflexivity. }
  split; [exact isAsyncFunction_not_function|].
  split; [intros ref f n b; eexists; apply isAsyncFunction_plain|].
  split.
  { intros v s H. unfold isAsyncFunction.
    destruct (String.eqb (typeof v) "function"); [|eexists; reflexivity].
    rewrite H. eexists. reflexivity. }
  assert (Throws_iff : forall v e,
    isAsyncFunction v = Throw e
    <-> typeof v = "function"
        /\ (invoke_toString v = Throw e
            \/ exists r, invoke_toString v = Normal r
                         /\ invoke_startsWith r "async" = Throw e)).
  { intros v e. unfold isAsyncFunction.
    destruct (String.eqb_spec (typeof v) "function") as [T|T].
    - destruct (invoke_toString v) as [r|e'] eqn:I; simpl.
      + split.
        * intros H. split; [exact T|]. right. exists r. auto.
        * intros [_ [H|(r' & H & S)]]; [discriminate|]. congruence.
      + split.
        * intros H. split; [exact T|]. left. injection H as ->. reflexivity.
        * intros [_ [H|(r' & H & _)]]; [injection H as ->; reflexivity | discriminate].
    - split; [discriminate | intros [T' _]; contradiction]. }
  split; [exact Throws_iff|].
  split.
  { intros v e H. apply Throws_iff in H. destruct H as [T H].
    apply typeof_function in T. destruct T as (ref & f & n & b & [|m|] & ->).
    - destruct H as [H|(r & H & S)]; [discriminate|].
      simpl in H. injection H as <-. discriminate.
    - exists ref, f, n, b. right. eauto.
    - exists ref, f, n, b. left. reflexivity. }
  split; [reflexivity|].
  split.
  { intros ref f n b m T. unfold isAsyncFunction. simpl.
    destruct m as [| |x|x|x|x|x|r o]; try reflexivity.
    destruct o; try reflexivity. exfalso. apply T. reflexivity. }
  split.
  { intros ref f n b r g k t x. reflexivity. }
  intros ref f n b r g k t result S _. unfold isAsyncFunction. simpl.
  destruct result as [| |x|x|x|x|x|r' o]; try (eexists; reflexivity).
  exfalso. exact (S x eq_refl).
Qed.

(** C7 as first stated fails: on a function whose [toString] is not
    callable, [isAsyncFunction] throws instead of returning [false]. *)
Lemma isAsyncFunction_can_throw :
  typeof function_without_toString = "function"
  /\ isAsyncFunction function_without_toString = Throw (TypeError "not a function").
Proof. split; reflexivity. Qed.

End PredicateTheorems.

(** * Properties of the array helpers *)

Section ArrayFacts.
Import JsNumber JsArray.
Local Open Scope list_scope.

Lemma number_equal_refl (n : number) :
  JsNumber.equal n n = negb (JsNumber.isNaN n).
Proof.
  destruct n as [|neg|q]; simpl.
  - reflexivity.
  - apply Bool.eqb_reflx.
  - apply Qeq_bool_iff. reflexivity.
Qed.

Lemma strict_equals_refl (v : value) :
  strict_equals v v = negb (is_NaN_slot (Some v)).
Proof.
  destruct v as [| |b|n|s|id|z|ref o]; simpl; try reflexivity.
  - apply Bool.eqb_reflx.
  - rewrite number_equal_refl. destruct n; reflexivity.
  - apply String.eqb_refl.
  - apply Nat.eqb_refl.
  - apply Z.eqb_refl.
  - apply Nat.eqb_refl.
Qed.

Lemma get_middle (pre : array) (slot : option value) (post : array) :
  get (pre ++ slot :: post) (List.length pre) = slot_value slot.
Proof.
  unfold get. rewrite nth_error_app2 by lia. rewrite Nat.sub_diag. reflexivity.
Qed.

Lemma every_self (xs pre : array) :
  every_from (List.length pre) (fun v i => strict_equals v (get (pre ++ xs) i)) xs
  = negb (existsb is_NaN_slot xs).
Proof.
  revert pre. induction xs as [|slot xs IH]; intros pre; [reflexivity|].
  specialize (IH (pre ++ [slot])).
  rewrite <- app_assoc, length_app, Nat.add_1_r in IH. simpl in IH.
  destruct slot as [v|].
  - cbn [every_from existsb]. rewrite IH, get_middle. cbn [slot_value].
    rewrite strict_equals_refl, negb_orb. reflexivity.
  - cbn [every_from existsb is_NaN_slot orb]. exact IH.
Qed.


Lemma Set_add_Distinct (s : list value) (v : value) :
  Distinct s -> Distinct (Set_add s v).
Proof.
  intros D. unfold Set_add.
  destruct (existsb (fun e => same_value_zero e v) s) eqn:E.
  - exact D.
  - constructor; assumption.
Qed.

Lemma fold_Set_add_Distinct (l s : list value) :
  Distinct s -> Distinct (fold_left Set_add l s).
Proof.
  revert s. induction l as [|v l IH]; intros s D; simpl.
  - exact D.
  - apply IH, Set_add_Distinct, D.
Qed.

Lemma fold_Set_add_fixpoint (s : list value) :
  Distinct s -> fold_left Set_add s [] = s.
Proof.
  induction 1 as [|s v D IH E].
  - reflexivity.
  - rewrite fold_left_app, IH. simpl. unfold Set_add. rewrite E. reflexivity.
Qed.

Lemma new_Set_Array_from (s : list value) :
  new_Set (Array_from s) = fold_left Set_add s [].
Proof.
  unfold new_Set, Array_from. rewrite map_map. simpl. rewrite map_id. reflexivity.
Qed.

Lemma indexOf_from_absent (item : value) (a : array) (k : Z) :
  (forall v, In (Some v) a -> strict_equals item v = false) ->
  indexOf_from k item a = (-1)%Z.
Proof.
  revert k. induction a as [|slot a IH]; intros k H; [reflexivity|].
  destruct slot as [e|]; simpl.
  - rewrite (H e) by (left; reflexivity). apply IH. intros v I. apply H. right. exact I.
  - apply IH. intros v I. apply H. right. exact I.
Qed.

Lemma splice_last (init : array) (last : option value) :
  splice (-1) 1 (init ++ [last]) = ([last], init).
Proof.
  unfold splice. rewrite length_app. simpl List.length.
  replace (Z.of_nat (List.length init + 1)) with (Z.of_nat (List.length init) + 1)%Z by lia.
  change (-1 <? 0)%Z with true. cbv iota.
  replace (Z.max (Z.of_nat (List.length init) + 1 + -1) 0) with (Z.of_nat (List.length init)) by lia.
  replace (Z.min (Z.max 1 0) (Z.of_nat (List.length init) + 1 - Z.of_nat (List.length init)))
    with 1%Z by lia.
  rewrite Nat2Z.id. change (Z.to_nat 1) with 1%nat.
  assert (S1 : skipn (List.length init) (init ++ [last]) = [last]).
  { rewrite skipn_app, skipn_all, Nat.sub_diag. reflexivity. }
  assert (F1 : firstn (List.length init) (init ++ [last]) = init).
  { rewrite firstn_app, firstn_all, Nat.sub_diag. simpl. apply app_nil_r. }
  assert (S2 : skipn (List.length init + 1) (init ++ [last]) = []).
  { apply skipn_all2. rewrite length_app. simpl. lia. }
  rewrite S1, F1, S2, app_nil_r. reflexivity.
Qed.

End ArrayFacts.

Section ArrayTheorems.
Import JsNumber JsArray.
Local Open Scope list_scope.

(** C6, as amended.  [arraysEqual(xs, xs)] is [true] exactly when no
    element of [xs] is [NaN]; holes and every other kind of element do not
    matter. *)
Theorem arraysEqual_self (xs : array) :
  arraysEqual xs xs = negb (existsb is_NaN_slot xs).
Proof.
  unfold arraysEqual, every. rewrite Nat.eqb_refl. simpl.
  exact (every_self xs []).
Qed.

(** C6 as first stated fails on the array [[NaN]]. *)
Lemma arraysEqual_NaN_not_reflexive :
  arraysEqual [Some (VNumber NaN)] [Some (VNumber NaN)] = false.
Proof. reflexivity. Qed.

(** C8.  [unique] is idempotent: [unique(unique(xs))] is [unique(xs)],
    element by element and in the same order. *)
Theorem unique_idempotent (xs : array) :
  unique (unique xs) = unique xs.
Proof.
  unfold unique. rewrite new_Set_Array_from. f_equal.
  apply fold_Set_add_fixpoint. unfold new_Set.
  apply fold_Set_add_Distinct. constructor.
Qed.

(** C9.  On a non-empty array with no element [===] to [item],
    [remove(item, array)] takes the last slot off the array and returns it
    in a one-element array; the array does not stay as it was. *)
Theorem remove_absent_takes_last (item : value) (a : array) :
  a <> [] ->
  (forall v, In (Some v) a -> strict_equals item v = false) ->
  exists init last,
    a = init ++ [last]
    /\ remove item a = ([last], init)
    /\ snd (remove item a) <> a.
Proof.
  intros Hne Habs.
  destruct (exists_last Hne) as (init & last & ->).
  exists init, last. split; [reflexivity|].
  assert (R : remove item (init ++ [last]) = ([last], init)).
  { unfold remove, indexOf. rewrite indexOf_from_absent by exact Habs.
    apply splice_last. }
  split; [exact R|].
  rewrite R. simpl. intros E. apply (f_equal (@List.length _)) in E.
  rewrite length_app in E. simpl in E. lia.
Qed.

(** [remove(9, [1,2,3])] returns [[3]] and leaves [[1,2]]. *)
Lemma remove_absent_takes_last_witness :
  exists init last,
    slots_123 = init ++ [last]
    /\ remove (VNumber (of_Z 9)) slots_123 = ([last], init)
    /\ snd (remove (VNumber (of_Z 9)) slots_123) <> slots_123.
Proof.
  apply (remove_absent_takes_last (VNumber (of_Z 9)) slots_123).
  - discriminate.
  - intros v [E|[E|[E|[]]]]; injection E as <-; reflexivity.
Defined.

End ArrayTheorems.

(** * Properties of [throttle] and [debounce] *)

Section TimerFacts.
Import Timers.
Local Open Scope list_scope.
Local Close Scope Q_scope.

(** *** Closures *)






(** *** The queue *)








(** *** The invariant is kept *)

Lemma leaf_cell_set (v : option positive) (c : Wrapper) : leaf c -> leaf (cell_set v c).
Proof. intros L. exact L. Qed.















(** *** A timer fires *)















(** *** The clock moves *)


Lemma fire_due_nil (n t : nat) (h : Host) : timers h = [] -> fire_due n t h = h.
Proof. intros Q. destruct n; simpl; [|rewrite Q]; reflexivity. Qed.













(** *** Reachable hosts *)

















(** *** The live timers of one wrapper *)







(** *** One call of a wrapper *)








End TimerFacts.

Section ThrottleFacts.
Import Timers.
Local Open Scope list_scope.
Local Close Scope Q_scope.








End ThrottleFacts.

Section ThrottleTheorems.
Import Timers.
Local Open Scope list_scope.
Local Close Scope Q_scope.



End ThrottleTheorems.

Section DebounceFacts.
Import Timers.
Local Open Scope list_scope.
Local Close Scope Q_scope.









End DebounceFacts.

Section DebounceTheorems.
Import Timers.
Local Open Scope list_scope.
Local Close Scope Q_scope.



End DebounceTheorems.

Section TimerExamples.
Import Timers JsNumber.
Local Open Scope list_scope.
Local Close Scope Q_scope.




(** It fails as well when [fn] calls its own wrapper: [timer] is still
    [null] while [fn] runs, so the one call [w(1)] invokes [fn] twice at
    once, and a single call 1 ms later is dropped as it should be. *)
Lemma throttle_reentrant_fn_invoked_twice :
  snd (call_wrapper 0 (arg 1) reentrant_host) = Normal tt
  /\ invocations_of 0 (fst (call_wrapper 0 (arg 1) reentrant_host))
     = [{| at_time := 0; callee := 0; arguments := arg 1 |};
        {| at_time := 0; callee := 0; arguments := arg 2 |}]
  /\ invocations_of 0 (calls_at 0 [(0, arg 1); (1, arg 3)] reentrant_host)
     = [{| at_time := 0; callee := 0; arguments := arg 1 |};
        {| at_time := 0; callee := 0; arguments := arg 2 |}].
Proof. repeat split; reflexivity. Qed.






End TimerExamples.

(** * More properties of the array helpers *)

Section MoreArrayFacts.
Import JsNumber JsArray ArrayHelpers.
Local Open Scope list_scope.
Local Close Scope Q_scope.

Lemma splice_one_at (pre : array) (x : option value) (post : array) (start : Z) :
  (start = Z.of_nat (List.length pre)
   \/ start = (Z.of_nat (List.length pre) - Z.of_nat (List.length (pre ++ x :: post)))%Z) ->
  splice start 1 (pre ++ x :: post) = ([x], pre ++ post).
Proof.
  intros H. unfold splice.
  set (len := Z.of_nat (List.length (pre ++ x :: post))).
  assert (L : len = (Z.of_nat (List.length pre) + 1 + Z.of_nat (List.length post))%Z).
  { unfold len. rewrite length_app. simpl. lia. }
  assert (S0 : (if (start <? 0)%Z then Z.max (len + start) 0 else Z.min start len)
               = Z.of_nat (List.length pre)).
  { destruct (Z.ltb_spec start 0); destruct H as [H|H]; lia. }
  rewrite S0.
  replace (Z.min (Z.max 1 0) (len - Z.of_nat (List.length pre))) with 1%Z by lia.
  rewrite Nat2Z.id. change (Z.to_nat 1) with 1.
  rewrite skipn_app, skipn_all, Nat.sub_diag. simpl.
  rewrite firstn_app, firstn_all, Nat.sub_diag. simpl. rewrite app_nil_r.
  replace (List.length pre + 1) with (S (List.length pre)) by lia.
  rewrite skipn_app, skipn_all2 by lia.
  replace (S (List.length pre) - List.length pre) with 1 by lia. reflexivity.
Qed.

Lemma splice_past_end (a : array) (start : Z) :
  (Z.of_nat (List.length a) <= start)%Z -> splice start 1 a = ([], a).
Proof.
  intros H. unfold splice.
  destruct (Z.ltb_spec start 0); [lia|].
  replace (Z.min start (Z.of_nat (List.length a))) with (Z.of_nat (List.length a)) by lia.
  replace (Z.min (Z.max 1 0) (Z.of_nat (List.length a) - Z.of_nat (List.length a)))
    with 0%Z by lia.
  rewrite Nat2Z.id. simpl. rewrite firstn_all, Nat.add_0_r, skipn_all, app_nil_r.
  reflexivity.
Qed.

Lemma splice_conserves (start : Z) (a : array) :
  List.length (fst (splice start 1 a)) + List.length (snd (splice start 1 a))
  = List.length a
  /\ List.length (fst (splice start 1 a)) <= 1.
Proof.
  unfold splice.
  set (len := Z.of_nat (List.length a)).
  set (st := if (start <? 0)%Z then Z.max (len + start) 0 else Z.min start len).
  set (dc := Z.min (Z.max 1 0) (len - st)).
  cbn [fst snd].
  assert (S1 : (0 <= st <= len)%Z).
  { unfold st. destruct (Z.ltb_spec start 0); lia. }
  assert (D : (0 <= dc <= 1 /\ st + dc <= len)%Z) by (unfold dc; lia).
  rewrite length_app, !length_firstn, !length_skipn. lia.
Qed.

Lemma splice_before_start (a : array) (start : Z) :
  (start <= - Z.of_nat (List.length a))%Z ->
  splice start 1 a = (firstn 1 a, skipn 1 a).
Proof.
  intros H. unfold splice.
  set (len := Z.of_nat (List.length a)).
  assert (S0 : (if (start <? 0)%Z then Z.max (len + start) 0 else Z.min start len) = 0%Z).
  { destruct (Z.ltb_spec start 0); unfold len in *; lia. }
  rewrite S0. change (Z.to_nat 0) with 0. cbn [skipn firstn app Nat.add].
  destruct a as [|x a].
  - reflexivity.
  - replace (Z.min (Z.max 1 0) (len - 0)) with 1%Z
      by (unfold len; cbn [List.length]; lia).
    reflexivity.
Qed.

Lemma splice_splits (start : Z) (a : array) :
  exists pre post,
    a = pre ++ fst (splice start 1 a) ++ post
    /\ snd (splice start 1 a) = pre ++ post
    /\ List.length (fst (splice start 1 a)) <= 1.
Proof.
  unfold splice.
  set (len := Z.of_nat (List.length a)).
  set (st := if (start <? 0)%Z then Z.max (len + start) 0 else Z.min start len).
  set (dc := Z.min (Z.max 1 0) (len - st)).
  cbn [fst snd].
  exists (firstn (Z.to_nat st) a), (skipn (Z.to_nat st + Z.to_nat dc) a).
  split; [|split].
  - rewrite Nat.add_comm, <- skipn_skipn, firstn_skipn, firstn_skipn. reflexivity.
  - reflexivity.
  - rewrite length_firstn. unfold dc. lia.
Qed.

Lemma truncate_inject (z : Z) : truncate (inject_Z z) = z.
Proof.
  unfold truncate. destruct (Qle_bool 0 (inject_Z z)).
  - apply Qfloor_Z.
  - apply Qceiling_Z.
Qed.

Lemma indexOf_from_first (item v : value) (pre post : array) (k : Z) :
  (forall u, In (Some u) pre -> strict_equals item u = false) ->
  strict_equals item v = true ->
  indexOf_from k item (pre ++ Some v :: post) = (k + Z.of_nat (List.length pre))%Z.
Proof.
  revert k. induction pre as [|slot pre IH]; intros k H E; simpl.
  - rewrite E. lia.
  - assert (H' : forall u, In (Some u) pre -> strict_equals item u = false)
      by (intros u I; apply H; right; exact I).
    destruct slot as [e|].
    + rewrite (H e) by (left; reflexivity). rewrite IH by assumption. lia.
    + rewrite IH by assumption. lia.
Qed.

Lemma indexOf_from_range (item : value) (a : array) (k : Z) :
  (indexOf_from k item a = -1
   \/ k <= indexOf_from k item a < k + Z.of_nat (List.length a))%Z.
Proof.
  revert k. induction a as [|slot a IH]; intros k; simpl; [left; reflexivity|].
  destruct slot as [e|].
  - destruct (strict_equals item e); [right; lia|].
    destruct (IH (k + 1)%Z); [left; assumption | right; lia].
  - destruct (IH (k + 1)%Z); [left; assumption | right; lia].
Qed.

(** *** [===] and SameValueZero *)

Lemma Qeq_bool_sym (a b : Q) : Qeq_bool a b = Qeq_bool b a.
Proof.
  destruct (Qeq_bool a b) eqn:A, (Qeq_bool b a) eqn:B; try reflexivity.
  - apply Qeq_bool_iff in A. symmetry in A. apply Qeq_bool_iff in A. congruence.
  - apply Qeq_bool_iff in B. symmetry in B. apply Qeq_bool_iff in B. congruence.
Qed.

Lemma strict_equals_sym (x y : value) : strict_equals x y = strict_equals y x.
Proof.
  destruct x as [| |a|a|a|a|a|a oa], y as [| |b|b|b|b|b|b ob]; simpl; try reflexivity.
  - destruct a, b; reflexivity.
  - destruct a as [|na|qa], b as [|nb|qb]; simpl; try reflexivity.
    + destruct na, nb; reflexivity.
    + apply Qeq_bool_sym.
  - apply String.eqb_sym.
  - apply Nat.eqb_sym.
  - apply Z.eqb_sym.
  - apply Nat.eqb_sym.
Qed.

Lemma same_value_zero_refl (v : value) : same_value_zero v v = true.
Proof.
  destruct v as [| |b|n|s|id|z|ref o]; simpl.
  - reflexivity.
  - reflexivity.
  - apply Bool.eqb_reflx.
  - destruct n as [|neg|q]; simpl.
    + reflexivity.
    + apply Bool.eqb_reflx.
    + apply Qeq_bool_iff. reflexivity.
  - apply String.eqb_refl.
  - apply Nat.eqb_refl.
  - apply Z.eqb_refl.
  - apply Nat.eqb_refl.
Qed.

(** *** Sets *)

Lemma Set_add_cases (s : list value) (v : value) :
  (Set_add s v = s /\ existsb (fun e => same_value_zero e v) s = true)
  \/ (Set_add s v = s ++ [v] /\ existsb (fun e => same_value_zero e v) s = false).
Proof.
  unfold Set_add. destruct (existsb _ s); [left | right]; split; reflexivity.
Qed.

Lemma fold_Set_add_app (l1 l2 s : list value) :
  fold_left Set_add (l1 ++ l2) s = fold_left Set_add l2 (fold_left Set_add l1 s).
Proof. apply fold_left_app. Qed.

Lemma fold_Set_add_extends (l s : list value) :
  exists more, fold_left Set_add l s = s ++ more
               /\ (forall v, In v more -> In v l)
               /\ List.length more <= List.length l.
Proof.
  revert s. induction l as [|v l IH]; intros s; simpl.
  - exists []. rewrite app_nil_r.
    split; [reflexivity|]. split; [intros v []|]. simpl. lia.
  - destruct (Set_add_cases s v) as [[-> _]|[-> _]].
    + destruct (IH s) as (more & E & I & L). exists more.
      split; [exact E|]. split; [auto | lia].
    + destruct (IH (s ++ [v])) as (more & E & I & L). exists (v :: more).
      rewrite E, <- app_assoc. split; [reflexivity|]. split.
      * intros u [->|Iu]; [left; reflexivity | right; auto].
      * simpl. lia.
Qed.

Lemma fold_Set_add_covers (l s : list value) (v : value) :
  (In v l \/ existsb (fun e => same_value_zero e v) s = true) ->
  existsb (fun e => same_value_zero e v) (fold_left Set_add l s) = true.
Proof.
  revert s. induction l as [|u l IH]; intros s H; simpl.
  - destruct H as [[]|H]. exact H.
  - apply IH. destruct H as [[->|I]|H].
    + right. destruct (Set_add_cases s v) as [[-> E]|[-> _]]; [exact E|].
      rewrite existsb_app. simpl. rewrite same_value_zero_refl.
      rewrite orb_true_r. reflexivity.
    + left. exact I.
    + right. destruct (Set_add_cases s u) as [[-> _]|[-> _]]; [exact H|].
      rewrite existsb_app, H. reflexivity.
Qed.

Lemma spread_values (a : array) : map slot_value (spread a) = map slot_value a.
Proof. unfold spread. rewrite map_map. reflexivity. Qed.

Lemma Array_from_values (s : list value) : map slot_value (Array_from s) = s.
Proof. unfold Array_from. rewrite map_map. apply map_id. Qed.

End MoreArrayFacts.

Section MoreArrayTheorems.
Import JsNumber JsArray ArrayHelpers.
Local Open Scope list_scope.
Local Close Scope Q_scope.

(** X1.  [removeAtIndex(array, i)] with [0 <= i < array.length] takes
    exactly slot [i] out of the array, keeping the order of the others, and
    returns it in a one-element array; an index from [-array.length] to
    [-1] counts from the end. *)
Theorem removeAtIndex_in_range (pre : array) (x : option value) (post : array) :
  removeAtIndex (pre ++ x :: post) (of_nat (List.length pre)) = ([x], pre ++ post)
  /\ removeAtIndex (pre ++ x :: post) (of_Z (- Z.of_nat (S (List.length post))))
     = ([x], pre ++ post).
Proof.
  unfold removeAtIndex, of_nat, of_Z, relative_index. rewrite !truncate_inject. split.
  - apply splice_one_at. left. reflexivity.
  - apply splice_one_at. right. rewrite length_app. simpl. lia.
Qed.

(** X2.  [removeAtIndex] with an index at or past the end of the array
    (or [+Infinity]) removes nothing: it returns the empty array and
    leaves the array as it was.  With an index at or below
    [-array.length] (or [-Infinity]) it removes the first slot, if there is
    one.  For every index the slots it returns are at most one and stood
    together in the array, which is left holding the slots before them
    followed by the slots after them. *)
Theorem removeAtIndex_out_of_range (a : array) :
  (forall z, (Z.of_nat (List.length a) <= z)%Z -> removeAtIndex a (of_Z z) = ([], a))
  /\ removeAtIndex a (Infinity false) = ([], a)
  /\ (forall z, (z <= - Z.of_nat (List.length a))%Z
                -> removeAtIndex a (of_Z z) = (firstn 1 a, skipn 1 a))
  /\ removeAtIndex a (Infinity true) = (firstn 1 a, skipn 1 a)
  /\ (forall index,
        exists pre post,
          a = pre ++ fst (removeAtIndex a index) ++ post
          /\ snd (removeAtIndex a index) = pre ++ post
          /\ List.length (fst (removeAtIndex a index)) <= 1).
Proof.
  split; [|split; [|split; [|split]]].
  - intros z H. unfold removeAtIndex, of_Z, relative_index. rewrite truncate_inject.
    apply splice_past_end, H.
  - unfold removeAtIndex, relative_index. apply splice_past_end. lia.
  - intros z H. unfold removeAtIndex, of_Z, relative_index. rewrite truncate_inject.
    apply splice_before_start, H.
  - unfold removeAtIndex, relative_index. apply splice_before_start. lia.
  - intros index. apply splice_splits.
Qed.

(** X3.  A fractional index is truncated towards zero and [NaN] counts as
    [0]: [removeAtIndex(array, 1.5)] removes slot 1, and
    [removeAtIndex(array, NaN)] and [removeAtIndex(array, -0.5)] remove the
    first slot. *)
Theorem removeAtIndex_truncates (a : array) (q : Q) :
  removeAtIndex a (Finite q) = removeAtIndex a (of_Z (truncate q))
  /\ removeAtIndex a NaN = removeAtIndex a (of_Z 0)
  /\ ((-1 < q)%Q -> (q < 1)%Q -> removeAtIndex a (Finite q) = removeAtIndex a (of_Z 0)).
Proof.
  split; [|split].
  - unfold removeAtIndex, of_Z, relative_index. rewrite truncate_inject. reflexivity.
  - reflexivity.
  - intros L U. unfold removeAtIndex, of_Z, relative_index. rewrite truncate_inject.
    f_equal. unfold truncate.
    destruct (Qle_bool 0 q) eqn:P.
    + apply Qle_bool_iff in P.
      assert (0 <= Qfloor q)%Z.
      { change 0%Z with (Qfloor (inject_Z 0)). apply Qfloor_resp_le. exact P. }
      assert (Qfloor q < 1)%Z.
      { rewrite Zlt_Qlt. apply (Qle_lt_trans _ q); [apply Qfloor_le | exact U]. }
      lia.
    + assert (N : (q < 0)%Q).
      { apply Qnot_le_lt. intros C. apply Qle_bool_iff in C. congruence. }
      assert (Qceiling q <= 0)%Z.
      { change 0%Z with (Qceiling (inject_Z 0)). apply Qceiling_resp_le.
        apply Qlt_le_weak. exact N. }
      assert (-1 < Qceiling q)%Z.
      { rewrite Zlt_Qlt. apply (Qlt_le_trans _ q); [exact L | apply Qle_ceiling]. }
      lia.
Qed.

End MoreArrayTheorems.

Section ArrayCompositionFacts.
Import JsNumber JsArray ArrayHelpers.
Local Open Scope list_scope.
Local Close Scope Q_scope.

Lemma splice_takes_one (start : Z) (a : array) :
  a <> [] ->
  (start = -1 \/ 0 <= start < Z.of_nat (List.length a))%Z ->
  List.length (fst (splice start 1 a)) = 1.
Proof.
  intros Ne H. unfold splice.
  assert (0 < List.length a) by (destruct a; [contradiction | simpl; lia]).
  set (len := Z.of_nat (List.length a)).
  set (st := if (start <? 0)%Z then Z.max (len + start) 0 else Z.min start len).
  set (dc := Z.min (Z.max 1 0) (len - st)).
  cbn [fst].
  assert (S1 : (0 <= st < len)%Z).
  { unfold st, len. destruct (Z.ltb_spec start 0); lia. }
  assert (D : dc = 1%Z) by (unfold dc; lia).
  rewrite length_firstn, length_skipn, D. unfold len in S1. lia.
Qed.

Lemma spread_app (a b : array) : spread (a ++ b) = spread a ++ spread b.
Proof. apply map_app. Qed.

Lemma spread_spread (a : array) : spread (spread a) = spread a.
Proof. unfold spread. rewrite map_map. reflexivity. Qed.

Lemma spread_dense (a : array) : dense a -> spread a = a.
Proof.
  induction 1 as [|slot a P D IH]; [reflexivity|].
  simpl. rewrite IH. destruct slot; [reflexivity | contradiction].
Qed.

Lemma dense_spread (a : array) : dense (spread a).
Proof. apply Forall_map, Forall_forall. intros; discriminate. Qed.

Lemma get_app (a b : array) (i : nat) :
  get (a ++ b) i = if (i <? List.length a)%nat then get a i else get b (i - List.length a).
Proof.
  unfold get. destruct (Nat.ltb_spec i (List.length a)).
  - rewrite nth_error_app1 by assumption. reflexivity.
  - rewrite nth_error_app2 by assumption. reflexivity.
Qed.

Lemma get_spread (a : array) (i : nat) : get (spread a) i = get a i.
Proof.
  unfold get, spread. rewrite nth_error_map.
  destruct (nth_error a i); reflexivity.
Qed.

Lemma fold_Set_add_covered (l s : list value) :
  (forall v, In v l -> existsb (fun e => same_value_zero e v) s = true) ->
  fold_left Set_add l s = s.
Proof.
  induction l as [|v l IH]; intros H; simpl; [reflexivity|].
  destruct (Set_add_cases s v) as [[-> _]|[_ E]].
  - apply IH. intros u I. apply H. right. exact I.
  - rewrite H in E by (left; reflexivity). discriminate.
Qed.

Lemma every_dense_sym (a b pa pb : array) :
  dense a -> dense b -> List.length a = List.length b ->
  List.length pa = List.length pb ->
  every_from (List.length pa) (fun v i => strict_equals v (get (pb ++ b) i)) a
  = every_from (List.length pb) (fun v i => strict_equals v (get (pa ++ a) i)) b.
Proof.
  intros Da. revert b pa pb. induction Da as [|x a Px Da IH]; intros b pa pb Db L Lp.
  - destruct b; [reflexivity | discriminate].
  - destruct Db as [|y b Py Db]; [discriminate|].
    destruct x as [u|]; [|contradiction]. destruct y as [v|]; [|contradiction].
    cbn [every_from].
    replace (get (pb ++ Some v :: b) (List.length pa)) with v.
    2:{ rewrite Lp. unfold get. rewrite nth_error_app2, Nat.sub_diag by lia. reflexivity. }
    replace (get (pa ++ Some u :: a) (List.length pb)) with u.
    2:{ rewrite <- Lp. unfold get. rewrite nth_error_app2, Nat.sub_diag by lia. reflexivity. }
    rewrite (strict_equals_sym u v). f_equal.
    specialize (IH b (pa ++ [Some u]) (pb ++ [Some v]) Db).
    rewrite !length_app, <- !app_assoc in IH. simpl in IH.
    rewrite !Nat.add_1_r in IH. apply IH; simpl in *; lia.
Qed.

End ArrayCompositionFacts.

Section ArrayCompositionTheorems.
Import JsNumber JsArray ArrayHelpers.
Local Open Scope list_scope.
Local Close Scope Q_scope.

(** X4.  When [item] occurs in the array, [remove(item, array)] takes out
    its first occurrence only, everything else staying in place, and
    returns that one slot. *)
Theorem remove_first_occurrence (item v : value) (pre post : array) :
  (forall u, In (Some u) pre -> strict_equals item u = false) ->
  strict_equals item v = true ->
  remove item (pre ++ Some v :: post) = ([Some v], pre ++ post).
Proof.
  intros Absent Found. unfold remove, indexOf.
  rewrite (indexOf_from_first item v pre post 0 Absent Found).
  apply splice_one_at. left. lia.
Qed.

Lemma remove_first_occurrence_witness :
  remove (VNumber (of_Z 2))
         [Some (VNumber (of_Z 1)); Some (VNumber (of_Z 2)); Some (VNumber (of_Z 2))]
  = ([Some (VNumber (of_Z 2))], [Some (VNumber (of_Z 1)); Some (VNumber (of_Z 2))]).
Proof.
  apply (remove_first_occurrence (VNumber (of_Z 2)) (VNumber (of_Z 2))
           [Some (VNumber (of_Z 1))] [Some (VNumber (of_Z 2))]).
  - intros u [E|[]]. injection E as <-. reflexivity.
  - reflexivity.
Defined.

(** X5.  [remove] takes exactly one slot out of every non-empty array,
    whether or not [item] occurs in it, and nothing out of an empty one:
    the array always loses exactly the slots returned. *)
Theorem remove_always_takes_one (item : value) (a : array) :
  List.length (fst (remove item a)) + List.length (snd (remove item a)) = List.length a
  /\ (a <> [] -> List.length (fst (remove item a)) = 1)
  /\ (a = [] -> remove item a = ([], [])).
Proof.
  split; [apply splice_conserves|]. split.
  - intros Ne. apply splice_takes_one; [exact Ne|].
    unfold indexOf. destruct (indexOf_from_range item a 0); [left; assumption | right; lia].
  - intros ->. reflexivity.
Qed.

(** X6.  [merge(a, b)] has [a.length + b.length] slots, none of them a
    hole: slot [i] holds [a[i]] for [i < a.length] and [b[i - a.length]]
    after that, a hole of either array being read as [undefined]. *)
Theorem merge_slots (a b : array) :
  List.length (merge a b) = List.length a + List.length b
  /\ dense (merge a b)
  /\ forall i, get (merge a b) i
               = if (i <? List.length a)%nat then get a i else get b (i - List.length a).
Proof.
  unfold merge. split; [|split].
  - unfold spread. rewrite length_app, !length_map. reflexivity.
  - apply Forall_app. split; apply dense_spread.
  - intros i. rewrite get_app.
    assert (L : List.length (spread a) = List.length a) by apply length_map.
    rewrite L. destruct (i <? List.length a)%nat; apply get_spread.
Qed.

(** X7.  [merge] is associative, and merging with the empty array gives
    back a copy of the array in which holes have become [undefined]: the
    same slots when the array has no hole. *)
Theorem merge_associative (a b c : array) :
  merge (merge a b) c = merge a (merge b c)
  /\ merge a [] = spread a /\ merge [] a = spread a
  /\ (dense a -> merge a [] = a /\ merge [] a = a).
Proof.
  unfold merge. rewrite !spread_app, !spread_spread, app_assoc. simpl.
  rewrite app_nil_r. repeat split; rewrite ?spread_dense; auto.
Qed.

(** X8.  [unique(array)] has no hole and no two elements that
    SameValueZero identifies; each of its elements is an element of
    [array], each element of [array] is SameValueZero to one of its
    elements, it is never longer than [array], and an array that already
    has no hole and no such pair comes back as it is. *)
Theorem unique_elements (a : array) :
  dense (unique a)
  /\ Distinct (map slot_value (unique a))
  /\ (forall v, In v (map slot_value (unique a)) -> In v (map slot_value a))
  /\ (forall v, In v (map slot_value a) ->
        existsb (fun e => same_value_zero e v) (map slot_value (unique a)) = true)
  /\ List.length (unique a) <= List.length a
  /\ (dense a -> Distinct (map slot_value a) -> unique a = a).
Proof.
  unfold unique. rewrite Array_from_values. unfold new_Set.
  destruct (fold_Set_add_extends (map slot_value a) []) as (more & E & I & L).
  simpl in E. split; [|split; [|split; [|split; [|split]]]].
  - unfold Array_from. apply Forall_map, Forall_forall. intros; discriminate.
  - apply fold_Set_add_Distinct. constructor.
  - rewrite E. exact I.
  - intros v Iv. apply fold_Set_add_covers. left. exact Iv.
  - unfold Array_from. rewrite length_map, E. rewrite length_map in L. exact L.
  - intros Da Di. rewrite (fold_Set_add_fixpoint _ Di).
    unfold Array_from. rewrite map_map. apply (spread_dense a Da).
Qed.

(** X9.  Removing duplicates before merging changes nothing once
    duplicates are removed after it:
    [unique(merge(unique(a), b))] is [unique(merge(a, b))], and
    [unique(merge(a, a))] is [unique(a)]. *)
Theorem unique_of_merge (a b : array) :
  unique (merge (unique a) b) = unique (merge a b)
  /\ unique (merge a a) = unique a.
Proof.
  unfold unique, new_Set, merge. rewrite !map_app, !spread_values.
  rewrite Array_from_values, !fold_Set_add_app. split.
  - rewrite (fold_Set_add_fixpoint (fold_left Set_add (map slot_value a) []));
      [reflexivity|].
    apply fold_Set_add_Distinct. constructor.
  - f_equal. apply fold_Set_add_covered. intros v I.
    apply fold_Set_add_covers. left. exact I.
Qed.

(** X10.  [arraysEqual(a, b)] is [false] whenever the lengths differ, and
    on arrays without holes it is symmetric. *)
Theorem arraysEqual_symmetric (a b : array) :
  dense a -> dense b ->
  arraysEqual a b = arraysEqual b a
  /\ (List.length a <> List.length b -> arraysEqual a b = false).
Proof.
  intros Da Db. unfold arraysEqual, every. split.
  - rewrite (Nat.eqb_sym (List.length b)).
    destruct (Nat.eqb_spec (List.length a) (List.length b)) as [L|L]; [|reflexivity].
    simpl. exact (every_dense_sym a b [] [] Da Db L eq_refl).
  - intros L. destruct (Nat.eqb_spec (List.length a) (List.length b)); [contradiction|].
    reflexivity.
Qed.

Lemma arraysEqual_symmetric_witness :
  arraysEqual [Some (VString "a"); Some VNull] [Some (VString "a"); Some VUndefined]
  = arraysEqual [Some (VString "a"); Some VUndefined] [Some (VString "a"); Some VNull].
Proof.
  refine (proj1 (arraysEqual_symmetric [Some (VString "a"); Some VNull]
                                       [Some (VString "a"); Some VUndefined] _ _));
    unfold dense; repeat (apply Forall_cons; [discriminate|]); apply Forall_nil.
Defined.

(** X11.  For a native array, [isIndexable(array)] is exactly
    [isIndexOf(0, array)]: an array is indexable when index 0 exists. *)
Theorem isIndexable_is_index_zero (ref : nat) (a : array) :
  isIndexable (VObject ref (OArray a)) = isIndexOf (VNumber (of_Z 0)) (VObject ref (OArray a))
  /\ (isIndexable (VObject ref (OArray a)) = Normal true <-> a <> []).
Proof.
  split.
  - destruct a; reflexivity.
  - destruct a; simpl; split; congruence.
Qed.

End ArrayCompositionTheorems.

Section ShuffleFacts.
Import JsNumber JsArray ArrayHelpers.
Local Open Scope list_scope.
Local Close Scope Q_scope.

Lemma nth_error_set_index (a : array) (i : nat) (v : value) (k : nat) :
  i < List.length a ->
  nth_error (set_index a i v) k = if (k =? i)%nat then Some (Some v) else nth_error a k.
Proof.
  intros L. unfold set_index. destruct (Nat.ltb_spec i (List.length a)); [|lia].
  assert (Lf : List.length (firstn i a) = i) by (rewrite length_firstn; lia).
  destruct (Nat.eqb_spec k i) as [->|Ne].
  - rewrite nth_error_app2, Lf, Nat.sub_diag by lia. reflexivity.
  - destruct (Nat.lt_ge_cases k i).
    + rewrite nth_error_app1 by lia. rewrite nth_error_firstn.
      destruct (Nat.ltb_spec k i); [reflexivity | lia].
    + rewrite nth_error_app2 by lia. rewrite Lf.
      destruct (k - i) as [|j] eqn:E; [lia|]. cbn [nth_error].
      rewrite nth_error_skipn. f_equal. lia.
Qed.

Lemma length_set_index (a : array) (i : nat) (v : value) :
  i < List.length a -> List.length (set_index a i v) = List.length a.
Proof.
  intros L. unfold set_index. destruct (Nat.ltb_spec i (List.length a)); [|lia].
  rewrite length_app. cbn [List.length]. rewrite length_firstn, length_skipn. lia.
Qed.

Lemma get_set_index (a : array) (i : nat) (v : value) (k : nat) :
  i < List.length a ->
  get (set_index a i v) k = if (k =? i)%nat then v else get a k.
Proof.
  intros L. unfold get. rewrite nth_error_set_index by exact L.
  destruct (k =? i)%nat; reflexivity.
Qed.

Lemma get_nth (a : array) (k : nat) : get a k = nth k (map slot_value a) VUndefined.
Proof.
  unfold get. revert k. induction a as [|x a IH]; intros [|k]; simpl; auto.
Qed.

Lemma swap_slots_length (a : array) (i m : nat) :
  i < List.length a -> m < List.length a ->
  List.length (swap_slots a i m) = List.length a.
Proof.
  intros Li Lm. unfold swap_slots.
  rewrite length_set_index; rewrite length_set_index; auto.
Qed.

Lemma swap_slots_get (a : array) (i m k : nat) :
  i < List.length a -> m < List.length a ->
  get (swap_slots a i m) k
  = get a (if (k =? i)%nat then m else if (k =? m)%nat then i else k).
Proof.
  intros Li Lm. unfold swap_slots.
  rewrite get_set_index by (rewrite length_set_index; auto).
  rewrite get_set_index by auto.
  destruct (Nat.eqb_spec k i); [reflexivity|].
  destruct (Nat.eqb_spec k m); reflexivity.
Qed.

Lemma swap_slots_permutation (a : array) (i m : nat) :
  i < List.length a -> m < List.length a ->
  Permutation (map slot_value a) (map slot_value (swap_slots a i m)).
Proof.
  intros Li Lm. apply (Permutation_nth _ _ VUndefined). rewrite !length_map. split.
  - apply swap_slots_length; assumption.
  - exists (fun k => if (k =? i)%nat then m else if (k =? m)%nat then i else k).
    split; [|split].
    + intros x Lx. destruct (x =? i)%nat; [exact Lm|]. destruct (x =? m)%nat; assumption.
    + intros x y Lx Ly.
      destruct (Nat.eqb_spec x i), (Nat.eqb_spec y i),
               (Nat.eqb_spec x m), (Nat.eqb_spec y m); lia.
    + intros x Lx. rewrite <- !get_nth. apply swap_slots_get; assumption.
Qed.

Lemma swap_slots_present (a : array) (i m k : nat) :
  i < List.length a -> m < List.length a ->
  (k = m \/ nth_error a k <> Some None) ->
  nth_error (swap_slots a i m) k <> Some None.
Proof.
  intros Li Lm H. unfold swap_slots.
  rewrite nth_error_set_index by (rewrite length_set_index; auto).
  destruct (Nat.eqb_spec k i); [discriminate|].
  rewrite nth_error_set_index by auto.
  destruct (Nat.eqb_spec k m); [discriminate|].
  destruct H; [contradiction | assumption].
Qed.

Lemma shuffle_from_spec (draw : nat -> nat) (m : nat) (a : array) :
  fair draw -> m <= List.length a ->
  (forall k, m <= k -> nth_error a k <> Some None) ->
  Permutation (map slot_value a) (map slot_value (shuffle_from draw m a))
  /\ List.length (shuffle_from draw m a) = List.length a
  /\ (forall k, nth_error (shuffle_from draw m a) k <> Some None).
Proof.
  intros F. revert a. induction m as [|m IH]; intros a L P; simpl.
  - split; [apply Permutation_refl|]. split; [reflexivity|].
    intros k. apply P. lia.
  - assert (Li : draw (S m) < List.length a) by (specialize (F (S m)); lia).
    assert (Lm : m < List.length a) by lia.
    change (set_index (set_index a m (get a (draw (S m)))) (draw (S m)) (get a m))
      with (swap_slots a (draw (S m)) m).
    destruct (IH (swap_slots a (draw (S m)) m)) as (Pm & Ln & Pr).
    + rewrite swap_slots_length by assumption. lia.
    + intros k Lk. apply swap_slots_present; try assumption.
      destruct (Nat.eq_dec k m); [left; assumption | right; apply P; lia].
    + split; [|split].
      * eapply Permutation_trans; [|exact Pm]. apply swap_slots_permutation; assumption.
      * rewrite Ln. apply swap_slots_length; assumption.
      * exact Pr.
Qed.

End ShuffleFacts.

Section ShuffleTheorems.
Import JsNumber JsArray ArrayHelpers.
Local Open Scope list_scope.
Local Close Scope Q_scope.

(** X12.  Whatever [Math.random] gives, [shuffle(array)] leaves the array
    with the same length and the same elements, each as many times as
    before, in some order; holes have become [undefined]. *)
Theorem shuffle_permutes (draw : nat -> nat) (a : array) :
  fair draw ->
  Permutation (map slot_value a) (map slot_value (shuffle draw a))
  /\ List.length (shuffle draw a) = List.length a
  /\ dense (shuffle draw a).
Proof.
  intros F. unfold shuffle.
  destruct (shuffle_from_spec draw (List.length a) a F (Nat.le_refl _)) as (P & L & D).
  - intros k Lk E. assert (N : nth_error a k = None) by (apply nth_error_None; exact Lk).
    congruence.
  - split; [exact P|]. split; [exact L|].
    apply Forall_forall. intros slot I ->.
    destruct (In_nth_error _ _ I) as [k E]. exact (D k E).
Qed.

(** [shuffle([1, 2, 3])] when every draw is 0. *)
Lemma shuffle_permutes_witness :
  Permutation (map slot_value slots_123) (map slot_value (shuffle (fun _ => 0) slots_123)).
Proof.
  apply (shuffle_permutes (fun _ => 0) slots_123). intros m L. exact L.
Defined.

End ShuffleTheorems.

(** * Properties of [isEmail] and [isPhone] *)

Section RegExpFacts.
Import JsRegExp.
Local Open Scope list_scope.
Local Close Scope Q_scope.

Lemma lang_Class_inv (p : ascii -> bool) (s : list ascii) :
  lang (Class p) s -> exists c, s = [c] /\ p c = true.
Proof. intros H. inversion H; subst. eauto. Qed.

Lemma lang_Seq_inv (r t : regex) (s : list ascii) :
  lang (Seq r t) s -> exists u v, s = u ++ v /\ lang r u /\ lang t v.
Proof. intros H. inversion H; subst. eauto. Qed.

Lemma nullable_lang (r : regex) : nullable r = true <-> lang r [].
Proof.
  induction r as [| |p|r IHr s IHs|r IHr s IHs|r IHr]; simpl.
  - split; [discriminate | intros H; inversion H].
  - split; [intros _; constructor | reflexivity].
  - split; [discriminate | intros H; inversion H].
  - rewrite andb_true_iff, IHr, IHs. split.
    + intros [A B]. exact (lang_Seq r s [] [] A B).
    + intros H. apply lang_Seq_inv in H. destruct H as (u & v & E & A & B).
      destruct u; [|discriminate]. destruct v; [|discriminate]. auto.
  - rewrite orb_true_iff, IHr, IHs. split.
    + intros [A|B]; [apply lang_Alt_l | apply lang_Alt_r]; assumption.
    + intros H. inversion H; subst; auto.
  - split; [intros _; constructor | reflexivity].
Qed.

Lemma lang_Star_cons (r : regex) (c : ascii) (s : list ascii) :
  lang (Star r) (c :: s) ->
  exists u v, s = u ++ v /\ lang r (c :: u) /\ lang (Star r) v.
Proof.
  intros H. remember (Star r) as sr eqn:Er. remember (c :: s) as cs eqn:Ec.
  revert Ec. induction H as [| | | | | |r0 u v Hu _ Hv IHv]; intros Ec; try discriminate.
  injection Er as ->. destruct u as [|c' u].
  - apply IHv; [reflexivity | exact Ec].
  - simpl in Ec. injection Ec as -> <-. eauto.
Qed.

Lemma derive_lang (r : regex) (c : ascii) (s : list ascii) :
  lang (derive c r) s <-> lang r (c :: s).
Proof.
  revert s. induction r as [| |p|r IHr t IHt|r IHr t IHt|r IHr]; intros s; simpl.
  - split; intros H; inversion H.
  - split; intros H; inversion H.
  - destruct (p c) eqn:P; split; intros H; inversion H; subst.
    + constructor. exact P.
    + constructor.
    + congruence.
  - assert (Fwd : forall w, lang (Seq (derive c r) t) w -> lang (Seq r t) (c :: w)).
    { intros w H. apply lang_Seq_inv in H. destruct H as (u & v & -> & A & B).
      apply IHr in A. exact (lang_Seq r t (c :: u) v A B). }
    assert (Bwd : forall w, lang (Seq r t) (c :: w) ->
                            lang (Seq (derive c r) t) w
                            \/ (lang r [] /\ lang t (c :: w))).
    { intros w H. apply lang_Seq_inv in H. destruct H as (u & v & E & A & B).
      destruct u as [|c' u].
      - simpl in E. subst v. right. auto.
      - simpl in E. injection E as <- ->. left. apply lang_Seq; [apply IHr|]; assumption. }
    destruct (nullable r) eqn:N; split; intros H.
    + apply nullable_lang in N.
      inversion H as [| | |? ? ? A|? ? ? A| |]; subst; [apply Fwd; exact A|].
      apply IHt in A. exact (lang_Seq r t [] (c :: s) N A).
    + destruct (Bwd s H) as [A|[_ B]]; [apply lang_Alt_l; exact A|].
      apply lang_Alt_r, IHt, B.
    + apply Fwd, H.
    + destruct (Bwd s H) as [A|[A _]]; [exact A|].
      apply nullable_lang in A. congruence.
  - split; intros H; inversion H; subst.
    + apply lang_Alt_l, IHr. assumption.
    + apply lang_Alt_r, IHt. assumption.
    + apply lang_Alt_l, IHr. assumption.
    + apply lang_Alt_r, IHt. assumption.
  - split; intros H.
    + apply lang_Seq_inv in H. destruct H as (u & v & -> & A & B).
      apply IHr in A. exact (lang_Star_more r (c :: u) v A B).
    + destruct (lang_Star_cons r c s H) as (u & v & -> & A & B).
      apply lang_Seq; [apply IHr|]; assumption.
Qed.

Lemma matches_lang (r : regex) (s : list ascii) : matches r s = true <-> lang r s.
Proof.
  revert r. induction s as [|c s IH]; intros r; simpl.
  - apply nullable_lang.
  - rewrite IH. apply derive_lang.
Qed.

Lemma lang_within (P : ascii -> Prop) (r : regex) (s : list ascii) :
  classes_within P r -> lang r s -> Forall P s.
Proof.
  intros C H. induction H; simpl in C.
  - constructor.
  - constructor; [auto | constructor].
  - apply Forall_app. split; [apply IHlang1 | apply IHlang2]; tauto.
  - apply IHlang; tauto.
  - apply IHlang; tauto.
  - constructor.
  - apply Forall_app. split; [apply IHlang1 | apply IHlang2]; assumption.
Qed.

Lemma lang_plus_inv (p : ascii -> bool) (s : list ascii) :
  lang (plus (Class p)) s ->
  exists c rest, s = c :: rest /\ p c = true /\ Forall (fun x => p x = true) rest.
Proof.
  intros H. apply lang_Seq_inv in H. destruct H as (u & v & -> & A & B).
  apply lang_Class_inv in A. destruct A as (c & -> & Pc).
  exists c, v. split; [reflexivity|]. split; [exact Pc|].
  apply (lang_within (fun x => p x = true) (Star (Class p))); [|exact B].
  simpl. auto.
Qed.

Lemma lang_times_class (p : ascii -> bool) (n : nat) (s : list ascii) :
  lang (times n (Class p)) s <-> List.length s = n /\ forallb p s = true.
Proof.
  revert s. induction n as [|n IH]; intros s; simpl.
  - split.
    + intros H. inversion H. auto.
    + intros [L _]. destruct s; [constructor | discriminate].
  - split.
    + intros H. apply lang_Seq_inv in H. destruct H as (u & v & -> & A & B).
      apply lang_Class_inv in A. destruct A as (c & -> & Pc).
      apply IH in B. destruct B as [L F]. simpl. rewrite Pc, F. auto.
    + intros [L F]. destruct s as [|c s]; [discriminate|]. simpl in *.
      apply andb_true_iff in F. destruct F as [Pc F].
      apply (lang_Seq (Class p) (times n (Class p)) [c] s).
      * constructor. exact Pc.
      * apply IH. split; [lia | exact F].
Qed.

Lemma one_of_single (x c : ascii) : one_of (String x EmptyString) c = true <-> c = x.
Proof.
  unfold one_of. simpl. rewrite orb_false_r. apply Ascii.eqb_eq.
Qed.

(** The last character of a non-empty run of labels is a word character. *)
Lemma labels_like_last (sep : ascii -> bool) (s : list ascii) :
  lang (Seq (plus (Class is_word)) (Star (Seq (Class sep) (plus (Class is_word))))) s ->
  exists front c, s = front ++ [c] /\ is_word c = true.
Proof.
  intros H. apply lang_Seq_inv in H. destruct H as (u & v & -> & A & B).
  assert (Last : forall w, lang (plus (Class is_word)) w ->
                           exists front c, w = front ++ [c] /\ is_word c = true).
  { intros w Hw. apply lang_plus_inv in Hw. destruct Hw as (c & rest & -> & Pc & F).
    destruct (exists_last (l := c :: rest)) as (front & z & E); [discriminate|].
    exists front, z. split; [exact E|].
    assert (I : In z (c :: rest)) by (rewrite E; apply in_or_app; right; left; reflexivity).
    destruct I as [<-|I]; [exact Pc|]. rewrite Forall_forall in F. apply F, I. }
  remember (Star (Seq (Class sep) (plus (Class is_word)))) as star eqn:Es.
  revert u A. induction B as [| | | | | |r0 x y Hx _ Hy IHy]; intros u0 A; try discriminate.
  - rewrite app_nil_r. apply Last, A.
  - injection Es as ->.
    apply lang_Seq_inv in Hx. destruct Hx as (x1 & x2 & -> & _ & Hw).
    destruct (IHy eq_refl x2 Hw) as (front & z & E & Pz).
    exists (u0 ++ x1 ++ front), z. split; [|exact Pz].
    rewrite <- !app_assoc. rewrite E. reflexivity.
Qed.

Lemma is_word_not (c : ascii) :
  is_word c = true -> c <> "@"%char /\ c <> "."%char /\ c <> "-"%char
                      /\ c <> "+"%char /\ StringToNumber.is_whitespace c = false.
Proof.
  destruct c as [[] [] [] [] [] [] [] []]; vm_compute; intros H;
    try discriminate; repeat split; discriminate.
Qed.

End RegExpFacts.

Section EmailFacts.
Import JsRegExp.
Local Open Scope list_scope.
Local Close Scope Q_scope.

Lemma length_list_ascii (s : string) :
  String.length s = List.length (list_ascii_of_string s).
Proof. induction s as [|c s IH]; simpl; [reflexivity | rewrite IH; reflexivity]. Qed.

Lemma alternates_word_run (b : bool) (w s : list ascii) :
  Forall (fun x => is_word x = true) w ->
  w <> [] \/ b = true ->
  alternates b (w ++ s) = alternates true s.
Proof.
  intros F. revert b. induction F as [|c w Pc F IH]; intros b N.
  - destruct N as [N| ->]; [contradiction | reflexivity].
  - simpl. rewrite Pc. apply IH. right. reflexivity.
Qed.

Lemma alternates_plus (b : bool) (w s : list ascii) :
  lang (plus (Class is_word)) w -> alternates b (w ++ s) = alternates true s.
Proof.
  intros H. apply lang_plus_inv in H. destruct H as (c & rest & -> & Pc & F).
  apply alternates_word_run; [constructor; assumption | left; discriminate].
Qed.

Lemma alternates_separated (sep : ascii -> bool) (v s : list ascii) :
  (forall c, sep c = true -> is_word c = false) ->
  lang (Star (Seq (Class sep) (plus (Class is_word)))) v ->
  alternates true (v ++ s) = alternates true s.
Proof.
  intros S H. remember (Star (Seq (Class sep) (plus (Class is_word)))) as star eqn:Es.
  induction H as [| | | | | |r0 x y Hx _ Hy IHy]; try discriminate.
  - reflexivity.
  - injection Es as ->.
    apply lang_Seq_inv in Hx. destruct Hx as (x1 & x2 & -> & Hc & Hw).
    apply lang_Class_inv in Hc. destruct Hc as (c & -> & Pc).
    rewrite <- !app_assoc. simpl. rewrite (S c Pc). simpl.
    rewrite (alternates_plus false x2 (y ++ s) Hw). apply IHy. reflexivity.
Qed.

Lemma alternates_labels (sep : ascii -> bool) (b : bool) (u s : list ascii) :
  (forall c, sep c = true -> is_word c = false) ->
  lang (Seq (plus (Class is_word)) (Star (Seq (Class sep) (plus (Class is_word))))) u ->
  alternates b (u ++ s) = alternates true s.
Proof.
  intros S H. apply lang_Seq_inv in H. destruct H as (w & v & -> & Hw & Hv).
  rewrite <- app_assoc. rewrite (alternates_plus b w (v ++ s) Hw).
  apply (alternates_separated sep); assumption.
Qed.

Lemma one_of_not_word (chars : string) :
  forallb (fun x => negb (is_word x)) (list_ascii_of_string chars) = true ->
  forall c, one_of chars c = true -> is_word c = false.
Proof.
  unfold one_of. intros F c H. apply existsb_exists in H. destruct H as (x & I & E).
  apply Ascii.eqb_eq in E. subst x. rewrite forallb_forall in F.
  apply F in I. apply negb_true_iff in I. exact I.
Qed.

Lemma alternates_neighbours (b : bool) (s : list ascii) :
  alternates b s = true ->
  forall u c d v, s = u ++ c :: d :: v -> is_word c = true \/ is_word d = true.
Proof.
  revert b. induction s as [|x s IH]; intros b A u c d v E.
  - destruct u; discriminate.
  - destruct u as [|y u]; simpl in E.
    + injection E as -> ->. simpl in A.
      destruct (is_word c) eqn:Pc; [left; reflexivity|].
      destruct (is_word d) eqn:Pd; [right; reflexivity|].
      rewrite andb_false_r in A. discriminate.
    + injection E as <- ->. simpl in A.
      destruct (is_word x).
      * exact (IH true A u c d v eq_refl).
      * apply andb_true_iff in A. destruct A as [_ A].
        exact (IH false A u c d v eq_refl).
Qed.

Lemma email_parts (email : string) :
  isEmail email = true ->
  exists l d1 d2,
    list_ascii_of_string email = l ++ "@"%char :: d1 ++ "."%char :: d2
    /\ lang local_part l /\ lang labels d1 /\ lang labels d2.
Proof.
  unfold isEmail, test. intros H. apply matches_lang in H.
  apply lang_Seq_inv in H. destruct H as (l & r1 & E & Hl & H).
  apply lang_Seq_inv in H. destruct H as (a & dom & -> & Ha & H).
  apply lang_Class_inv in Ha. destruct Ha as (c & -> & Pc).
  apply one_of_single in Pc. subst c.
  apply lang_Seq_inv in H. destruct H as (d1 & r2 & -> & H1 & H).
  apply lang_Seq_inv in H. destruct H as (p & d2 & -> & Hp & H2).
  apply lang_Class_inv in Hp. destruct Hp as (c & -> & Pc).
  apply one_of_single in Pc. subst c.
  exists l, d1, d2. simpl in E. auto.
Qed.

Lemma labels_like_first (sep : ascii -> bool) (s : list ascii) :
  lang (Seq (plus (Class is_word)) (Star (Seq (Class sep) (plus (Class is_word))))) s ->
  exists c rest, s = c :: rest /\ is_word c = true.
Proof.
  intros H. apply lang_Seq_inv in H. destruct H as (u & v & -> & A & _).
  apply lang_plus_inv in A. destruct A as (c & rest & -> & Pc & _).
  exists c, (rest ++ v). auto.
Qed.

Lemma labels_like_alphabet (seps : string) (s : list ascii) :
  lang (Seq (plus (Class is_word)) (Star (Seq (Class (one_of seps)) (plus (Class is_word))))) s ->
  Forall (fun c => is_word c = true \/ one_of seps c = true) s.
Proof.
  apply lang_within. simpl. tauto.
Qed.

End EmailFacts.

Section RegExpTheorems.
Import JsRegExp.
Local Open Scope list_scope.
Local Close Scope Q_scope.

(** X13. [isPhone] accepts exactly the strings of eleven decimal digits whose
    first digit is 1 and whose second digit is 3 to 9; so whatever it
    accepts has length 11 and holds digits only, no sign and no blank. *)
Theorem isPhone_accepts_exactly (phone : string) :
  (isPhone phone = true <->
   exists d rest,
     list_ascii_of_string phone = "1"%char :: d :: rest
     /\ one_of "3456789" d = true
     /\ List.length rest = 9 /\ forallb is_digit rest = true)
  /\ (isPhone phone = true ->
      String.length phone = 11
      /\ forallb is_digit (list_ascii_of_string phone) = true).
Proof.
  assert (Shape : isPhone phone = true <->
    exists d rest,
      list_ascii_of_string phone = "1"%char :: d :: rest
      /\ one_of "3456789" d = true
      /\ List.length rest = 9 /\ forallb is_digit rest = true).
  { unfold isPhone, test. rewrite matches_lang. unfold phone_pattern. split.
    - intros H. apply lang_Seq_inv in H. destruct H as (u & r1 & E & A & H).
      apply lang_Class_inv in A. destruct A as (c & -> & Pc).
      apply one_of_single in Pc. subst c.
      apply lang_Seq_inv in H. destruct H as (u & rest & -> & A & H).
      apply lang_Class_inv in A. destruct A as (d & -> & Pd).
      apply lang_times_class in H. exists d, rest. simpl in E. tauto.
    - intros (d & rest & -> & Pd & L).
      apply (lang_Seq _ _ ["1"%char] (d :: rest)).
      + constructor. reflexivity.
      + apply (lang_Seq _ _ [d] rest).
        * constructor. exact Pd.
        * apply lang_times_class. exact L. }
  split; [exact Shape|].
  intros H. apply Shape in H. destruct H as (d & rest & E & Pd & L & F).
  rewrite length_list_ascii, E. simpl. rewrite L, F.
  split; [reflexivity|].
  rewrite andb_true_r.
  destruct d as [[] [] [] [] [] [] [] []]; vm_compute in Pd; try discriminate; reflexivity.
Qed.

(** X14. An address that [isEmail] accepts holds exactly one [@]: it is a
    local part, an [@] and a domain, the local part made of word characters
    and [-], [+], [.] only, the domain of word characters, [-] and [.] only
    and with a dot inside. *)
Theorem isEmail_one_at (email : string) :
  isEmail email = true ->
  exists local domain,
    list_ascii_of_string email = local ++ "@"%char :: domain
    /\ Forall (fun c => is_word c = true \/ one_of "-+." c = true) local
    /\ Forall (fun c => is_word c = true \/ one_of "-." c = true) domain
    /\ ~ In "@"%char local /\ ~ In "@"%char domain
    /\ In "."%char domain.
Proof.
  intros H. destruct (email_parts email H) as (l & d1 & d2 & E & Hl & H1 & H2).
  apply labels_like_alphabet in Hl, H1, H2.
  assert (Hd : Forall (fun c => is_word c = true \/ one_of "-." c = true)
                      (d1 ++ "."%char :: d2)).
  { apply Forall_app. split; [exact H1|]. constructor; [right; reflexivity | exact H2]. }
  exists l, (d1 ++ "."%char :: d2).
  split; [exact E|]. split; [exact Hl|]. split; [exact Hd|].
  split; [|split].
  - intros I. rewrite Forall_forall in Hl. destruct (Hl _ I); discriminate.
  - intros I. rewrite Forall_forall in Hd. destruct (Hd _ I); discriminate.
  - apply in_or_app. right. left. reflexivity.
Qed.

Lemma isEmail_one_at_witness :
  exists local domain,
    list_ascii_of_string "first.last+tag@mail.example.org" = local ++ "@"%char :: domain
    /\ Forall (fun c => is_word c = true \/ one_of "-+." c = true) local
    /\ Forall (fun c => is_word c = true \/ one_of "-." c = true) domain
    /\ ~ In "@"%char local /\ ~ In "@"%char domain
    /\ In "."%char domain.
Proof. apply (isEmail_one_at "first.last+tag@mail.example.org"). vm_compute. reflexivity. Defined.

(** X15. An address that [isEmail] accepts begins and ends with a word
    character, and no two neighbouring characters are both outside [\w]:
    a dot, a hyphen, a plus or the [@] is never doubled, never next to
    another of them, and never first or last. *)
Theorem isEmail_separators_apart (email : string) :
  isEmail email = true ->
  (exists c rest, list_ascii_of_string email = c :: rest /\ is_word c = true)
  /\ (exists front c, list_ascii_of_string email = front ++ [c] /\ is_word c = true)
  /\ (forall u c d v,
        list_ascii_of_string email = u ++ c :: d :: v ->
        is_word c = true \/ is_word d = true).
Proof.
  intros H. destruct (email_parts email H) as (l & d1 & d2 & E & Hl & H1 & H2).
  split; [|split].
  - destruct (labels_like_first _ l Hl) as (c & rest & -> & Pc).
    exists c, (rest ++ "@"%char :: d1 ++ "."%char :: d2). rewrite E. auto.
  - destruct (labels_like_last _ d2 H2) as (front & c & -> & Pc).
    exists (l ++ "@"%char :: d1 ++ "."%char :: front), c. rewrite E.
    split; [|exact Pc]. rewrite <- app_assoc. simpl. rewrite <- app_assoc. reflexivity.
  - apply (alternates_neighbours false). rewrite E.
    rewrite (alternates_labels (one_of "-+.") false l _
               (one_of_not_word "-+." eq_refl) Hl).
    change (alternates true ("@"%char :: d1 ++ "."%char :: d2))
      with (alternates false (d1 ++ "."%char :: d2)).
    rewrite (alternates_labels (one_of "-.") false d1 _
               (one_of_not_word "-." eq_refl) H1).
    change (alternates true ("."%char :: d2)) with (alternates false d2).
    rewrite <- (app_nil_r d2).
    rewrite (alternates_labels (one_of "-.") false d2 []
               (one_of_not_word "-." eq_refl) H2).
    reflexivity.
Qed.

Lemma isEmail_separators_apart_witness :
  (exists c rest, list_ascii_of_string "a_b-c@d.e" = c :: rest /\ is_word c = true)
  /\ (exists front c, list_ascii_of_string "a_b-c@d.e" = front ++ [c] /\ is_word c = true)
  /\ (forall u c d v,
        list_ascii_of_string "a_b-c@d.e" = u ++ c :: d :: v ->
        is_word c = true \/ is_word d = true).
Proof. apply (isEmail_separators_apart "a_b-c@d.e"). vm_compute. reflexivity. Defined.

End RegExpTheorems.

(** * Properties of [toTitleCase] *)

Section TitleCaseFacts.
Import StringToNumber JsRegExp TitleCase.
Local Close Scope Q_scope.

Ltac by_cases_on c :=
  destruct c as [[] [] [] [] [] [] [] []]; vm_compute; try reflexivity;
  try discriminate; auto.

Lemma toLowerCase_char_idempotent (c : ascii) :
  toLowerCase_char (toLowerCase_char c) = toLowerCase_char c.
Proof. by_cases_on c. Qed.

Lemma toLowerCase_char_whitespace (c : ascii) :
  is_whitespace (toLowerCase_char c) = is_whitespace c.
Proof. by_cases_on c. Qed.

Lemma toUpperCase_word_idempotent (c : ascii) :
  toUpperCase_word (toUpperCase_word c) = toUpperCase_word c.
Proof. by_cases_on c. Qed.

Lemma toUpperCase_word_is_word (c : ascii) :
  is_word (toUpperCase_word c) = is_word c.
Proof. by_cases_on c. Qed.

Lemma toUpperCase_word_whitespace (c : ascii) :
  is_whitespace (toUpperCase_word c) = is_whitespace c.
Proof. by_cases_on c. Qed.

Lemma toLowerCase_toUpperCase_word (c : ascii) :
  toLowerCase_char (toUpperCase_word c) = toLowerCase_char c.
Proof. by_cases_on c. Qed.

Lemma is_word_not_whitespace (c : ascii) :
  is_word c = true -> is_whitespace c = false.
Proof. intros H. apply is_word_not in H. tauto. Qed.

Lemma replace_from_idempotent (b : bool) (s : string) :
  replace_from b (replace_from b s) = replace_from b s.
Proof.
  revert b. induction s as [|c s IH]; intros b; [reflexivity|].
  destruct b; simpl.
  - destruct (is_whitespace c) eqn:W; simpl.
    + rewrite W, IH. reflexivity.
    + rewrite toLowerCase_char_whitespace, W, toLowerCase_char_idempotent, IH.
      reflexivity.
  - destruct (is_word c) eqn:P; simpl.
    + rewrite toUpperCase_word_is_word, P, toUpperCase_word_idempotent, IH.
      reflexivity.
    + rewrite P, IH. reflexivity.
Qed.

Lemma replace_from_length (b : bool) (s : string) :
  String.length (replace_from b s) = String.length s.
Proof.
  revert b. induction s as [|c s IH]; intros b; [reflexivity|].
  destruct b; simpl.
  - destruct (is_whitespace c); simpl; rewrite IH; reflexivity.
  - destruct (is_word c); simpl; rewrite IH; reflexivity.
Qed.

Lemma replace_from_toLowerCase (b : bool) (s : string) :
  toLowerCase (replace_from b s) = toLowerCase s.
Proof.
  revert b. induction s as [|c s IH]; intros b; [reflexivity|].
  destruct b; simpl.
  - destruct (is_whitespace c); simpl; rewrite IH; [reflexivity|].
    rewrite toLowerCase_char_idempotent. reflexivity.
  - destruct (is_word c); simpl; rewrite IH; [|reflexivity].
    rewrite toLowerCase_toUpperCase_word. reflexivity.
Qed.

Lemma replace_from_whitespace (b : bool) (s : string) :
  map is_whitespace (list_ascii_of_string (replace_from b s))
  = map is_whitespace (list_ascii_of_string s).
Proof.
  revert b. induction s as [|c s IH]; intros b; [reflexivity|].
  destruct b; simpl.
  - destruct (is_whitespace c) eqn:W; simpl; rewrite IH.
    + rewrite W. reflexivity.
    + rewrite toLowerCase_char_whitespace, W. reflexivity.
  - destruct (is_word c); simpl; rewrite IH; [|reflexivity].
    rewrite toUpperCase_word_whitespace. reflexivity.
Qed.

Lemma replace_from_break (b : bool) (a : string) (ws : ascii) (rest : string) :
  is_whitespace ws = true ->
  replace_from b (a ++ String ws rest)
  = (replace_from b a ++ String ws (replace_from false rest))%string.
Proof.
  intros W. revert b. induction a as [|c a IH]; intros b; simpl.
  - destruct b; [rewrite W; reflexivity|].
    destruct (is_word ws) eqn:P; [|reflexivity].
    apply is_word_not_whitespace in P. congruence.
  - destruct b.
    + destruct (is_whitespace c); simpl; rewrite IH; reflexivity.
    + destruct (is_word c); simpl; rewrite IH; reflexivity.
Qed.

Lemma replace_from_in_match (s : string) :
  forallb (fun c => negb (is_whitespace c)) (list_ascii_of_string s) = true ->
  replace_from true s = toLowerCase s.
Proof.
  induction s as [|c s IH]; simpl; [reflexivity|].
  intros H. apply andb_true_iff in H. destruct H as [W H].
  apply negb_true_iff in W. rewrite W, (IH H). reflexivity.
Qed.

Lemma replace_from_before_match (p rest : string) :
  forallb (fun c => negb (is_word c)) (list_ascii_of_string p) = true ->
  replace_from false (p ++ rest) = (p ++ replace_from false rest)%string.
Proof.
  induction p as [|c p IH]; simpl; [reflexivity|].
  intros H. apply andb_true_iff in H. destruct H as [P H].
  apply negb_true_iff in P. rewrite P, (IH H). reflexivity.
Qed.

End TitleCaseFacts.

Section TitleCaseTheorems.
Import StringToNumber JsRegExp TitleCase.
Local Close Scope Q_scope.

(** X16. [toTitleCase] is idempotent: a string it returned is returned
    unchanged. *)
Theorem toTitleCase_idempotent (str : string) :
  toTitleCase (toTitleCase str) = toTitleCase str.
Proof. apply replace_from_idempotent. Qed.

(** X17. [toTitleCase] changes letter case and nothing else: the result has
    the length of the argument, has white space exactly where the argument
    has it, and equals the argument once both are put in lower case. *)
Theorem toTitleCase_changes_case_only (str : string) :
  String.length (toTitleCase str) = String.length str
  /\ map is_whitespace (list_ascii_of_string (toTitleCase str))
     = map is_whitespace (list_ascii_of_string str)
  /\ toLowerCase (toTitleCase str) = toLowerCase str.
Proof.
  split; [apply replace_from_length|].
  split; [apply replace_from_whitespace | apply replace_from_toLowerCase].
Qed.

(** X18. [toTitleCase] works on each white-space-separated piece by itself:
    the result for [a], a white-space character and [b] is the result for
    [a], that character and the result for [b]. *)
Theorem toTitleCase_piecewise (a : string) (ws : ascii) (b : string) :
  is_whitespace ws = true ->
  toTitleCase (a ++ String ws b)
  = (toTitleCase a ++ String ws (toTitleCase b))%string.
Proof. apply replace_from_break. Qed.

Lemma toTitleCase_piecewise_witness :
  toTitleCase ("hello" ++ String " " "wORLD")
  = (toTitleCase "hello" ++ String " " (toTitleCase "wORLD"))%string.
Proof. apply (toTitleCase_piecewise "hello" " " "wORLD"). reflexivity. Defined.

(** X19. In a piece without white space, [toTitleCase] keeps what comes
    before the first character of [\w], puts that character in upper case
    and all that follows it in lower case, letters after a hyphen or an
    apostrophe included. *)
Theorem toTitleCase_piece (before : string) (c : ascii) (after : string) :
  forallb (fun x => negb (is_word x)) (list_ascii_of_string before) = true ->
  is_word c = true ->
  forallb (fun x => negb (is_whitespace x)) (list_ascii_of_string after) = true ->
  toTitleCase (before ++ String c after)
  = (before ++ String (toUpperCase_word c) (toLowerCase after))%string.
Proof.
  intros B P A. unfold toTitleCase.
  rewrite (replace_from_before_match before (String c after) B).
  simpl. rewrite P, (replace_from_in_match after A). reflexivity.
Qed.

Lemma toTitleCase_piece_witness :
  toTitleCase ("(" ++ String "m" "ary-ANN")
  = ("(" ++ String (toUpperCase_word "m") (toLowerCase "ary-ANN"))%string.
Proof. apply (toTitleCase_piece "(" "m" "ary-ANN"); reflexivity. Defined.

End TitleCaseTheorems.

(** * Properties of [groupBy] *)

Section GroupByFacts.
Import GroupBy.
Local Open Scope list_scope.
Local Close Scope Q_scope.
Variable T : Type.
Variable property : T -> string.

Lemma own_set_property (result : record T) (name : string) (group : list T) (other : string) :
  own T (set_property T result name group) other
  = if String.eqb name other then Some group else own T result other.
Proof.
  induction result as [|[n g] rest IH]; simpl.
  - reflexivity.
  - destruct (String.eqb_spec n name) as [->|N]; simpl.
    + destruct (String.eqb name other); reflexivity.
    + rewrite IH. destruct (String.eqb_spec n other) as [->|M].
      * destruct (String.eqb_spec name other) as [->|]; [contradiction N|]; reflexivity.
      * reflexivity.
Qed.

Lemma names_set_property (result : record T) (name : string) (group : list T) :
  map fst (set_property T result name group)
  = match own T result name with
    | Some _ => map fst result
    | None => map fst result ++ [name]
    end.
Proof.
  induction result as [|[n g] rest IH]; simpl.
  - reflexivity.
  - destruct (String.eqb_spec n name) as [->|N]; simpl.
    + reflexivity.
    + rewrite IH. destruct (own T rest name); reflexivity.
Qed.

Lemma own_in_names (result : record T) (name : string) :
  own T result name = None <-> ~ In name (map fst result).
Proof.
  induction result as [|[n g] rest IH]; simpl.
  - tauto.
  - destruct (String.eqb_spec n name) as [->|N].
    + split; [discriminate | tauto].
    + rewrite IH. tauto.
Qed.

Lemma NoDup_set_property (result : record T) (name : string) (group : list T) :
  NoDup (map fst result) -> NoDup (map fst (set_property T result name group)).
Proof.
  intros N. rewrite names_set_property.
  destruct (own T result name) eqn:O; [exact N|].
  apply own_in_names in O.
  apply NoDup_rev in N. rewrite <- (rev_involutive (_ ++ _)).
  apply NoDup_rev. rewrite rev_app_distr. simpl. constructor; [|exact N].
  rewrite <- in_rev. exact O.
Qed.

(** What one round of the callback does to the own properties. *)
Lemma collect_files (result : record T) (item : T) :
  inherited (property item) = false ->
  exists next,
    collect T property result item = Normal next
    /\ (forall name,
          own T next name
          = if String.eqb (property item) name
            then Some (match own T result name with
                       | Some group => group
                       | None => []
                       end ++ [item])
            else own T result name)
    /\ (NoDup (map fst result) -> NoDup (map fst next)).
Proof.
  intros I. unfold collect, get_property.
  destruct (own T result (property item)) as [group|] eqn:O; simpl.
  - rewrite O. eexists. split; [reflexivity|]. split.
    + intros name. rewrite own_set_property.
      destruct (String.eqb_spec (property item) name) as [<-|]; [|reflexivity].
      rewrite O. reflexivity.
    + apply NoDup_set_property.
  - rewrite I. simpl. rewrite own_set_property, String.eqb_refl.
    eexists. split; [reflexivity|]. split.
    + intros name. rewrite !own_set_property.
      destruct (String.eqb_spec (property item) name) as [<-|]; [|reflexivity].
      rewrite O. reflexivity.
    + intros N. apply NoDup_set_property, NoDup_set_property, N.
Qed.

Lemma collect_throws (result : record T) (item : T) :
  inherited (property item) = true ->
  own T result (property item) = None ->
  exists message, collect T property result item = Throw (TypeError message).
Proof.
  intros I O.
  assert (G : get_property T result (property item) = Inherited T)
    by (unfold get_property; rewrite O, I; reflexivity).
  unfold collect. rewrite G. simpl. rewrite G. eexists. reflexivity.
Qed.

Lemma reduce_collect (array : list (option T)) (accumulator : record T) :
  clean T accumulator ->
  if existsb (fun item => inherited (property item)) (items T array)
  then exists message,
         reduce T (collect T property) array accumulator = Throw (TypeError message)
  else exists result,
         reduce T (collect T property) array accumulator = Normal result
         /\ (forall name,
               own T result name
               = match own T accumulator name, filed_under T property name array with
                 | None, [] => None
                 | None, group => Some group
                 | Some before, group => Some (before ++ group)
                 end)
         /\ (NoDup (map fst accumulator) -> NoDup (map fst result)).
Proof.
  revert accumulator. induction array as [|[item|] rest IH]; intros accumulator C.
  - simpl. exists accumulator. split; [reflexivity|]. split; [|auto].
    intros name. unfold filed_under. simpl.
    destruct (own T accumulator name); [rewrite app_nil_r|]; reflexivity.
  - simpl. destruct (inherited (property item)) eqn:I; simpl.
    + destruct (collect_throws accumulator item I (C _ I)) as (message & E).
      exists message. rewrite E. reflexivity.
    + destruct (collect_files accumulator item I) as (next & E & O & N).
      rewrite E. simpl.
      assert (C' : clean T next).
      { intros name J. rewrite O.
        destruct (String.eqb_spec (property item) name) as [<-|]; [congruence|].
        apply C, J. }
      specialize (IH next C').
      destruct (existsb _ (items T rest)); [exact IH|].
      destruct IH as (result & R & G & D).
      exists result. split; [exact R|]. split; [|auto].
      intros name. rewrite G, O. unfold filed_under. simpl.
      destruct (String.eqb_spec (property item) name) as [<-|M].
      * destruct (own T accumulator (property item)); simpl.
        -- rewrite <- app_assoc. reflexivity.
        -- reflexivity.
      * reflexivity.
  - simpl. apply IH, C.
Qed.

Lemma clean_empty : clean T [].
Proof. intros name _. reflexivity. Qed.

End GroupByFacts.

Section GroupByTheorems.
Import GroupBy.
Local Open Scope list_scope.
Local Close Scope Q_scope.

(** X20. When no item is filed under a name that [Object.prototype] has,
    [groupBy] returns an object whose property [name], for every name, is
    the array of the items filed under that name, in the order of the
    argument, and which has no property for a name without items; no name
    appears twice among its own properties. *)
Theorem groupBy_groups (T : Type) (property : T -> string) (array : list (option T)) :
  (forall item, In item (items T array) -> inherited (property item) = false) ->
  exists result,
    groupBy T property array = Normal result
    /\ NoDup (map fst result)
    /\ forall name,
         own T result name
         = match filed_under T property name array with
           | [] => None
           | group => Some group
           end.
Proof.
  intros H.
  pose proof (reduce_collect T property array [] (clean_empty T)) as R.
  destruct (existsb _ (items T array)) eqn:E.
  - apply existsb_exists in E. destruct E as (item & I & J).
    rewrite (H item I) in J. discriminate.
  - destruct R as (result & R & G & D).
    exists result. split; [exact R|]. split; [apply D; constructor|].
    intros name. rewrite G. reflexivity.
Qed.

Lemma groupBy_groups_witness :
  exists result,
    groupBy (string * nat) fst [Some ("A", 1%nat); Some ("B", 2%nat); None; Some ("A", 3%nat)]
    = Normal result
    /\ NoDup (map fst result)
    /\ forall name,
         own (string * nat) result name
         = match filed_under (string * nat) fst name
                   [Some ("A", 1%nat); Some ("B", 2%nat); None; Some ("A", 3%nat)] with
           | [] => None
           | group => Some group
           end.
Proof.
  apply (groupBy_groups (string * nat) fst).
  intros item I. simpl in I.
  destruct I as [<-|[<-|[<-|[]]]]; reflexivity.
Defined.

(** X21. [groupBy] throws a TypeError exactly when some item is filed under
    a name that [Object.prototype] has, such as [constructor], [toString]
    or [valueOf]; otherwise it returns. *)
Theorem groupBy_throws_on_inherited_name (T : Type) (property : T -> string)
    (array : list (option T)) :
  ((exists message, groupBy T property array = Throw (TypeError message))
   <-> exists item, In item (items T array) /\ inherited (property item) = true)
  /\ ((exists result, groupBy T property array = Normal result)
      <-> forall item, In item (items T array) -> inherited (property item) = false).
Proof.
  pose proof (reduce_collect T property array [] (clean_empty T)) as R.
  fold (groupBy T property array) in R.
  destruct (existsb _ (items T array)) eqn:E.
  - apply existsb_exists in E. destruct E as (item & I & J).
    destruct R as (message & R). split; split.
    + intros _. exists item. auto.
    + intros _. exists message. exact R.
    + intros (result & N). congruence.
    + intros H. rewrite (H item I) in J. discriminate.
  - destruct R as (result & R & _).
    assert (A : forall item, In item (items T array) -> inherited (property item) = false).
    { intros item I. destruct (inherited (property item)) eqn:J; [|reflexivity].
      assert (X : existsb (fun item => inherited (property item)) (items T array) = true)
        by (apply existsb_exists; exists item; auto).
      congruence. }
    split; split.
    + intros (message & M). congruence.
    + intros (item & I & J). rewrite (A item I) in J. discriminate.
    + intros _. exact A.
    + intros _. exists result. exact R.
Qed.

End GroupByTheorems.

(** * How often a throttled function runs *)

Section ThrottleRateFacts.
Import Timers ThrottleRate.
Local Open Scope list_scope.
Local Close Scope Q_scope.














End ThrottleRateFacts.

Section ThrottleRateRuns.
Import Timers ThrottleRate.
Local Open Scope list_scope.
Local Close Scope Q_scope.




End ThrottleRateRuns.

Section ThrottleRateTheorems.
Import Timers ThrottleRate.
Local Open Scope list_scope.
Local Close Scope Q_scope.


End ThrottleRateTheorems.

Section ThrottleRateExamples.
Import Timers ThrottleRate.
Local Open Scope list_scope.
Local Close Scope Q_scope.


End ThrottleRateExamples.

(** * Properties of [parseQueryString] *)

Section QueryStringFacts.
Import JsRegExp QueryString.
Local Open Scope list_scope.
Local Close Scope Q_scope.

Lemma string_app_assoc (a b c : string) : ((a ++ b) ++ c = a ++ b ++ c)%string.
Proof. induction a as [|x a IH]; simpl; [reflexivity | rewrite IH; reflexivity]. Qed.

Lemma string_app_nil_r (a : string) : (a ++ "" = a)%string.
Proof. induction a as [|x a IH]; simpl; [reflexivity | rewrite IH; reflexivity]. Qed.

Lemma free_of_weaken (chars chars' : string) (s : string) :
  (forall c, one_of chars' c = true -> one_of chars c = true) ->
  free_of chars s = true -> free_of chars' s = true.
Proof.
  unfold free_of. intros W. induction (list_ascii_of_string s) as [|c l IH]; simpl.
  - reflexivity.
  - intros H. apply andb_true_iff in H. destruct H as [C H].
    rewrite (IH H), andb_true_r.
    destruct (one_of chars' c) eqn:E; [|reflexivity].
    rewrite (W c E) in C. discriminate.
Qed.

Lemma one_of_sub (c : ascii) (chars' chars : string) :
  forallb (fun x => one_of chars x) (list_ascii_of_string chars') = true ->
  one_of chars' c = true -> one_of chars c = true.
Proof.
  intros F H. unfold one_of in H. apply existsb_exists in H.
  destruct H as (x & I & E). apply Ascii.eqb_eq in E. subst x.
  rewrite forallb_forall in F. apply F, I.
Qed.

Lemma free_of_sub (chars chars' : string) (s : string) :
  forallb (fun x => one_of chars x) (list_ascii_of_string chars') = true ->
  free_of chars s = true -> free_of chars' s = true.
Proof.
  intros F. apply free_of_weaken. intros c. apply one_of_sub, F.
Qed.

Lemma free_of_single (sep c : ascii) (s : string) :
  free_of (String sep "") (String c s) = true ->
  Ascii.eqb c sep = false /\ free_of (String sep "") s = true.
Proof.
  unfold free_of, one_of. simpl. rewrite orb_false_r. intros H.
  apply andb_true_iff in H. destruct H as [C H].
  apply negb_true_iff in C. auto.
Qed.

Lemma split_from_piece (sep : ascii) (current a b : string) :
  free_of (String sep "") a = true ->
  split_from sep current (a ++ String sep b)
  = (current ++ a)%string :: split_from sep "" b.
Proof.
  revert current. induction a as [|c a IH]; intros current F; simpl.
  - rewrite Ascii.eqb_refl, string_app_nil_r. reflexivity.
  - apply free_of_single in F. destruct F as [C F]. rewrite C.
    rewrite (IH _ F), string_app_assoc. reflexivity.
Qed.

Lemma split_from_whole (sep : ascii) (current a : string) :
  free_of (String sep "") a = true ->
  split_from sep current a = [(current ++ a)%string].
Proof.
  revert current. induction a as [|c a IH]; intros current F; simpl.
  - rewrite string_app_nil_r. reflexivity.
  - apply free_of_single in F. destruct F as [C F]. rewrite C.
    rewrite (IH _ F), string_app_assoc. reflexivity.
Qed.

Lemma split_from_first (sep : ascii) (current s : string) :
  exists rest,
    split_from sep current s = (current ++ before sep s)%string :: rest.
Proof.
  revert current. induction s as [|c s IH]; intros current; simpl.
  - rewrite string_app_nil_r. eauto.
  - destruct (Ascii.eqb c sep).
    + rewrite string_app_nil_r. eauto.
    + destruct (IH (current ++ String c "")%string) as (rest & ->).
      rewrite string_app_assoc. eauto.
Qed.

Lemma split_join (texts : list string) :
  texts <> [] ->
  Forall (fun t => free_of "&" t = true) texts ->
  split "&" (join "&" texts) = texts.
Proof.
  intros N F. induction F as [|t texts Ft F IH]; [contradiction|].
  destruct texts as [|u texts].
  - simpl. unfold split. rewrite (split_from_whole _ _ _ Ft). reflexivity.
  - change (join "&" (t :: u :: texts))
      with (t ++ String "&" (join "&" (u :: texts)))%string.
    unfold split. rewrite (split_from_piece _ _ _ _ Ft). simpl append.
    fold (split "&" (join "&" (u :: texts))). rewrite IH; [reflexivity | discriminate].
Qed.

Lemma free_of_before (chars : string) (sep : ascii) (s : string) :
  free_of chars s = true -> free_of chars (before sep s) = true.
Proof.
  unfold free_of. induction s as [|c s IH]; simpl; [reflexivity|].
  intros H. apply andb_true_iff in H. destruct H as [C H].
  destruct (Ascii.eqb c sep); simpl; [reflexivity|].
  rewrite C, (IH H). reflexivity.
Qed.


Lemma own_replace (acc : entries) (name value other : string) :
  own acc name <> None ->
  own (replace acc name value) other
  = if String.eqb name other then Some value else own acc other.
Proof.
  induction acc as [|[n v] rest IH]; simpl; [contradiction|].
  destruct (String.eqb_spec n name) as [->|N]; simpl.
  - intros _. destruct (String.eqb name other); reflexivity.
  - intros O. rewrite (IH O). destruct (String.eqb_spec n other) as [->|M].
    + destruct (String.eqb_spec name other) as [->|]; [contradiction N|]; reflexivity.
    + reflexivity.
Qed.

Lemma own_place (i : N) (acc : entries) (name value other : string) :
  own acc name = None ->
  own (place i name value acc) other
  = if String.eqb name other then Some value else own acc other.
Proof.
  induction acc as [|[n v] rest IH]; simpl; [reflexivity|].
  destruct (String.eqb_spec n name) as [->|N]; [discriminate|]. intros O.
  destruct (array_index n) as [j|]; [|reflexivity].
  destruct (j <? i)%N; [|reflexivity].
  simpl. rewrite (IH O). destruct (String.eqb_spec n other) as [->|M].
  - destruct (String.eqb_spec name other) as [->|]; [contradiction N|]; reflexivity.
  - reflexivity.
Qed.

Lemma own_snoc (acc : entries) (name value other : string) :
  own acc name = None ->
  own (acc ++ [(name, value)]) other
  = if String.eqb name other then Some value else own acc other.
Proof.
  induction acc as [|[n v] rest IH]; simpl; [reflexivity|].
  destruct (String.eqb_spec n name) as [->|N]; [discriminate|]. intros O.
  rewrite (IH O). destruct (String.eqb_spec n other) as [->|M].
  - destruct (String.eqb_spec name other) as [->|]; [contradiction N|]; reflexivity.
  - reflexivity.
Qed.

Lemma own_define (acc : entries) (name value other : string) :
  own (define acc name value) other
  = if String.eqb name other then Some value else own acc other.
Proof.
  unfold define. destruct (own acc name) as [x|] eqn:O.
  - apply own_replace. congruence.
  - destruct (array_index name) as [i|]; [apply own_place | apply own_snoc]; exact O.
Qed.

Lemma define_fresh (acc : entries) (name value : string) :
  own acc name = None -> array_index name = None ->
  define acc name value = acc ++ [(name, value)].
Proof. intros O I. unfold define. rewrite O, I. reflexivity. Qed.

Lemma place_permutation (i : N) (acc : entries) (name value : string) :
  Permutation (place i name value acc) ((name, value) :: acc).
Proof.
  induction acc as [|[n v] rest IH]; simpl; [reflexivity|].
  destruct (array_index n) as [j|]; [|reflexivity].
  destruct (j <? i)%N; [|reflexivity].
  rewrite IH. apply perm_swap.
Qed.

Lemma define_permutation (acc : entries) (name value : string) :
  own acc name = None ->
  Permutation (define acc name value) (acc ++ [(name, value)]).
Proof.
  intros O. unfold define. rewrite O.
  destruct (array_index name) as [i|]; [|reflexivity].
  rewrite place_permutation. apply Permutation_cons_append.
Qed.

Lemma parse_pair_written (decode : string -> JsCompletion string)
      (acc : entries) (kv : string * string) :
  keeps_plain_text decode -> writable kv ->
  parse_pair decode acc (pair_text kv)
  = Normal (define acc (fst kv) (before "=" (snd kv))).
Proof.
  intros D (Fk & Fv & P). destruct kv as [k v]. simpl in *.
  unfold parse_pair, pair_text. simpl fst. simpl snd.
  change (k ++ "=" ++ v)%string with (k ++ String "=" v)%string.
  unfold split. rewrite split_from_piece; [|exact (free_of_sub "&=%" "=" k eq_refl Fk)].
  simpl append. destruct (split_from_first "=" "" v) as (rest & ->). simpl.
  rewrite (D k (free_of_sub "&=%" "%" k eq_refl Fk)). simpl.
  rewrite (D (before "=" v)
             (free_of_before "%" "=" v (free_of_sub "&%" "%" v eq_refl Fv))).
  simpl. unfold assign.
  destruct (String.eqb_spec k "__proto__"); [contradiction | reflexivity].
Qed.

Lemma pair_text_free (kv : string * string) :
  writable kv -> free_of "&" (pair_text kv) = true.
Proof.
  intros (Fk & Fv & _). destruct kv as [k v]. simpl in *.
  apply (free_of_sub "&=%" "&" k eq_refl) in Fk.
  apply (free_of_sub "&%" "&" v eq_refl) in Fv.
  unfold pair_text, free_of in *. simpl fst. simpl snd.
  change (k ++ "=" ++ v)%string with (k ++ String "=" v)%string.
  revert Fk. induction k as [|c k IH]; simpl.
  - intros _. exact Fv.
  - intros H. apply andb_true_iff in H. destruct H as [C H].
    rewrite C. simpl. exact (IH H).
Qed.

Lemma reduce_written (decode : string -> JsCompletion string)
      (pairs : entries) (acc : entries) :
  keeps_plain_text decode -> Forall writable pairs ->
  exists result,
    reduce (parse_pair decode) (map pair_text pairs) acc = Normal result
    /\ (forall name,
          own result name
          = match last_value (map (fun kv => (fst kv, before "=" (snd kv))) pairs) name with
            | Some v => Some v
            | None => own acc name
            end)
    /\ (NoDup (map fst pairs) ->
        (forall kv, In kv pairs -> own acc (fst kv) = None) ->
        Permutation result (acc ++ map (fun kv => (fst kv, before "=" (snd kv))) pairs)
        /\ (Forall (fun kv => array_index (fst kv) = None) pairs ->
            result = acc ++ map (fun kv => (fst kv, before "=" (snd kv))) pairs)).
Proof.
  intros D F. revert acc. induction F as [|kv pairs W F IH]; intros acc.
  - exists acc. simpl. split; [reflexivity|]. split; [reflexivity|].
    intros _ _. rewrite app_nil_r. split; reflexivity.
  - simpl. rewrite (parse_pair_written decode acc kv D W). simpl.
    destruct (IH (define acc (fst kv) (before "=" (snd kv)))) as (result & R & O & E).
    exists result. split; [exact R|]. split.
    + intros name. rewrite O, own_define. destruct kv as [k v]. simpl.
      destruct (last_value _ name); [reflexivity|].
      destruct (String.eqb k name); reflexivity.
    + intros ND Fresh. apply NoDup_cons_iff in ND. destruct ND as [NI ND].
      assert (Fk : own acc (fst kv) = None) by (apply Fresh; left; reflexivity).
      destruct (E ND) as [P Q].
      { intros kv' I. rewrite own_define.
        destruct (String.eqb_spec (fst kv) (fst kv')) as [Eq|_].
        - exfalso. apply NI. rewrite Eq. apply in_map, I.
        - apply Fresh. right. exact I. }
      split.
      * rewrite P. rewrite (define_permutation acc _ _ Fk).
        rewrite <- app_assoc. reflexivity.
      * intros A. apply Forall_cons_iff in A. destruct A as [Ak A].
        rewrite (Q A), (define_fresh acc _ _ Fk Ak), <- app_assoc. reflexivity.
Qed.

Lemma split_render (pairs : entries) :
  pairs <> [] -> Forall writable pairs ->
  split "&" (strip_question (render pairs)) = map pair_text pairs.
Proof.
  intros N F. unfold render. simpl strip_question. apply split_join.
  - destruct pairs; [contradiction | discriminate].
  - apply Forall_map. eapply Forall_impl; [|exact F].
    intros kv. apply pair_text_free.
Qed.

End QueryStringFacts.

Section QueryStringTheorems.
Import JsRegExp QueryString.
Local Open Scope list_scope.
Local Close Scope Q_scope.



(** The object lists [1] and [2] before [b], though [b] was written first. *)
Example parseQueryString_lists_indices_first :
  parseQueryString (fun s => Normal s) "?b=x&2=a&1=b&01=c"
  = Normal [("1", "b"); ("2", "a"); ("b", "x"); ("01", "c")].
Proof. reflexivity. Qed.

(** X24. When a key is written more than once, the value of its last
    occurrence is the one [parseQueryString] keeps; a key that was not
    written is not in the result. *)
Theorem parseQueryString_last_wins (decode : string -> JsCompletion string)
    (pairs : entries) :
  keeps_plain_text decode ->
  pairs <> [] ->
  Forall writable pairs ->
  exists result,
    parseQueryString decode (render pairs) = Normal result
    /\ forall name,
         own result name
         = last_value (map (fun kv => (fst kv, before "=" (snd kv))) pairs) name.
Proof.
  intros D N F. unfold parseQueryString. rewrite (split_render pairs N F).
  destruct (reduce_written decode pairs [] D F) as (result & R & O & _).
  exists result. split; [exact R|].
  intros name. rewrite O. simpl. destruct (last_value _ name); reflexivity.
Qed.

Lemma parseQueryString_last_wins_witness :
  exists result,
    parseQueryString (fun s => Normal s) (render [("a", "1"); ("b", "2"); ("a", "3")])
    = Normal result
    /\ forall name,
         own result name
         = last_value (map (fun kv => (fst kv, before "=" (snd kv)))
                           [("a", "1"); ("b", "2"); ("a", "3")]) name.
Proof.
  apply (parseQueryString_last_wins (fun s => Normal s) [("a", "1"); ("b", "2"); ("a", "3")]).
  - intros s _. reflexivity.
  - discriminate.
  - repeat (apply Forall_cons; [vm_compute; repeat split; discriminate|]).
    apply Forall_nil.
Defined.

End QueryStringTheorems.
